(** * LocalDB: the query layer of [db.js]

    A shallow embedding of class [LocalStatement] of [src/db.js]: the
    statement builder, the condition evaluator ([evaluateConditions],
    [applyFilter]), the sort comparator ([compareValues]), the result
    pipeline run by [fetchAll] and the write path [execute].

    The host language is modelled by the fragment in [Module JS]:
    values, coercions and the few built-ins the class calls. *)

From Stdlib Require Import ZArith Bool Ascii String List Lia DecimalString.
From Stdlib Require Import Sorted.
From stdpp Require Import base list.
Import ListNotations.

Set Warnings "-register-all".

Local Open Scope string_scope.
Local Open Scope Z_scope.

(* ===================================================================== *)
(** ** The fragment of the host language *)
(* ===================================================================== *)

Module JS.

(** Strings are sequences of ASCII code units throughout. *)

(** The classes of the exceptions the modelled code throws (the message
    text is the engine's and is not modelled). *)
Inductive exn : Type :=
| TypeError
| SyntaxError.

(** The completion of an evaluation: a value, a thrown exception, or
    [Unmodelled] when the evaluation leaves the fragment covered here
    (string to number conversion, objects converted to primitives,
    regular-expression syntax beyond literals, [.] and [*], patterns
    and tested strings with a character outside ASCII, numbers printed
    in exponent form). *)
Inductive result (A : Type) : Type :=
| Ret (a : A)
| Throw (e : exn)
| Unmodelled.
Arguments Ret {A} a.
Arguments Throw {A} e.
Arguments Unmodelled {A}.

Definition bind {A B : Type} (m : result A) (k : A -> result B) : result B :=
  match m with
  | Ret a => k a
  | Throw e => Throw e
  | Unmodelled => Unmodelled
  end.

Declare Scope js_scope.
Delimit Scope js_scope with js.
Notation "'let*' x ':=' m 'in' k" := (bind m (fun x => k))
  (at level 10, x pattern, m at level 100, k at level 200,
   format "'[v' 'let*'  x  :=  m  'in'  '/' k ']'") : js_scope.
Local Open Scope js_scope.

(** [Array.prototype.map] with a callback that may throw: the elements
    are visited from index 0 up and the first abrupt completion ends
    the traversal. *)
Section Traversals.
Context {A B : Type}.
Variable f : A -> result B.

Fixpoint mapM (l : list A) : result (list B) :=
  match l with
  | [] => Ret []
  | x :: l' => let* y := f x in let* ys := mapM l' in Ret (y :: ys)
  end.
End Traversals.

(** [Array.prototype.filter] with a predicate that may throw. *)
Section Filter.
Context {A : Type}.
Variable p : A -> result bool.

Fixpoint filterM (l : list A) : result (list A) :=
  match l with
  | [] => Ret []
  | x :: l' =>
      let* keep := p x in
      let* kept := filterM l' in
      Ret (if keep then x :: kept else kept)
  end.
End Filter.

(** Numbers: the integer-valued doubles and NaN.  Arithmetic on [Fin] is
    exact integer arithmetic, which is what the double arithmetic gives
    while magnitudes stay below 2^53. *)
Inductive number : Type :=
| NaN
| Fin (z : Z).

(** Values.  Arrays and objects carry the identity [ref] of the heap
    object they denote: [===] on them compares identities, not
    contents.  [Builtin name] is the function a plain object inherits
    from [Object.prototype] under [name]. *)
Inductive value : Type :=
| Undefined
| Null
| Bool (b : bool)
| Num (n : number)
| Str (s : string)
| Arr (ref : nat) (elems : list value)
| Obj (ref : nat) (props : list (string * value))
| Builtin (name : string).

(** [typeof v === "string"] *)
Definition is_string (v : value) : bool :=
  match v with Str _ => true | _ => false end.

(** [Array.isArray(v)] *)
Definition isArray (v : value) : bool :=
  match v with Arr _ _ => true | _ => false end.

Definition number_eqb (m n : number) : bool :=
  match m, n with
  | Fin x, Fin y => x =? y
  | _, _ => false
  end.

(** [a === b]: no coercion; NaN differs from itself; arrays, objects
    and functions are equal when they are the same object. *)
Definition strict_equals (a b : value) : bool :=
  match a, b with
  | Undefined, Undefined => true
  | Null, Null => true
  | Bool x, Bool y => Bool.eqb x y
  | Num m, Num n => number_eqb m n
  | Str s, Str t => String.eqb s t
  | Arr r _, Arr r' _ => Nat.eqb r r'
  | Obj r _, Obj r' _ => Nat.eqb r r'
  | Builtin f, Builtin g => String.eqb f g
  | _, _ => false
  end.

(** SameValueZero, the equality of [Array.prototype.includes]: as
    [===] except that NaN equals NaN. *)
Definition same_value_zero (a b : value) : bool :=
  match a, b with
  | Num NaN, Num NaN => true
  | _, _ => strict_equals a b
  end.

(** [arr.includes(x)] for an array value [arr]; [false] stands in for
    the non-array case, which callers guard with [isArray]. *)
Definition includes (arr x : value) : bool :=
  match arr with
  | Arr _ elems => existsb (fun y => same_value_zero y x) elems
  | _ => false
  end.

(** ToNumber on the primitives whose conversion is immediate. *)
Definition to_number (v : value) : result number :=
  match v with
  | Undefined => Ret NaN
  | Null => Ret (Fin 0)
  | Bool b => Ret (Fin (if b then 1 else 0))
  | Num n => Ret n
  | Str _ | Arr _ _ | Obj _ _ | Builtin _ => Unmodelled
  end.

(** The abstract relational comparison behind [<], [<=], [>], [>=]:
    two strings are compared by code units, anything else as numbers;
    [None] is the "undefined" outcome that a NaN operand gives. *)
Definition relational (a b : value) : result (option comparison) :=
  match a, b with
  | Str s, Str t => Ret (Some (String.compare s t))
  | _, _ =>
      let* m := to_number a in
      let* n := to_number b in
      Ret match m, n with
          | Fin x, Fin y => Some (x ?= y)
          | _, _ => None
          end
  end.

Definition less_than (a b : value) : result bool :=
  let* c := relational a b in
  Ret match c with Some Lt => true | _ => false end.

Definition less_equal (a b : value) : result bool :=
  let* c := relational a b in
  Ret match c with Some Lt | Some Eq => true | _ => false end.

Definition greater_than (a b : value) : result bool :=
  let* c := relational a b in
  Ret match c with Some Gt => true | _ => false end.

Definition greater_equal (a b : value) : result bool :=
  let* c := relational a b in
  Ret match c with Some Gt | Some Eq => true | _ => false end.

(** [a - b].  The difference of two integers is the exact one, which
    is what the host computes when both operands and the result lie
    within 2^53 in magnitude; beyond that the host rounds the result,
    keeping its sign and whether it is zero. *)
Definition subtract (a b : value) : result number :=
  let* m := to_number a in
  let* n := to_number b in
  Ret match m, n with
      | Fin x, Fin y => Fin (x - y)
      | _, _ => NaN
      end.

(** [String.prototype.toLowerCase] on ASCII letters; other code units
    are left as they are. *)
Definition lower_ascii (c : ascii) : ascii :=
  let n := nat_of_ascii c in
  if ((65 <=? n) && (n <=? 90))%nat then ascii_of_nat (n + 32) else c.

Fixpoint toLowerCase (s : string) : string :=
  match s with
  | EmptyString => EmptyString
  | String c s' => String (lower_ascii c) (toLowerCase s')
  end.

(** ToString, as applied by [RegExp.prototype.test] to its argument.
    Integers below 1e21 in magnitude print in decimal; from there on
    the host prints an exponent form, which is not modelled. *)
Definition to_string (v : value) : result string :=
  match v with
  | Undefined => Ret "undefined"
  | Null => Ret "null"
  | Bool b => Ret (if b then "true" else "false")
  | Num NaN => Ret "NaN"
  | Num (Fin z) =>
      if Z.abs z <? 10 ^ 21 then Ret (NilZero.string_of_int (Z.to_int z))
      else Unmodelled
  | Str s => Ret s
  | Arr _ _ | Obj _ _ | Builtin _ => Unmodelled
  end.

Definition drop_chars (n : nat) (s : string) : string :=
  String.substring n (String.length s - n) s.

(** [s.replace(pat, rep)] with a string pattern: only the first
    occurrence of [pat] is replaced ([rep] holds no [$] pattern). *)
Fixpoint replace_first (pat rep s : string) : string :=
  if String.prefix pat s then rep ++ drop_chars (String.length pat) s
  else match s with
       | EmptyString => EmptyString
       | String c s' => String c (replace_first pat rep s')
       end.

(** [v.replace(pat, rep)] as a method call on an arbitrary value: only
    strings have the method; [undefined], [null], numbers, booleans and
    arrays have no [replace], so the call throws. *)
Definition replace (v : value) (pat rep : string) : result string :=
  match v with
  | Str s => Ret (replace_first pat rep s)
  | Obj _ _ | Builtin _ => Unmodelled
  | _ => Throw TypeError
  end.

(** *** Regular expressions: literals, [.] and postfix [*] *)

Inductive regex : Type :=
| Void                      (* matches nothing *)
| Eps                       (* matches the empty string *)
| Chr (c : ascii)           (* a literal character *)
| AnyChar                   (* [.] *)
| Cat (r1 r2 : regex)
| Alt (r1 r2 : regex)
| Star (r : regex).

(** The syntax characters of the pattern grammar. *)
Definition syntax_chars : list ascii :=
  ["^"; "$"; "\"; "."; "*"; "+"; "?"; "("; ")"; "["; "]"; "{"; "}"; "|"]%char.

Definition is_syntax_char (c : ascii) : bool :=
  existsb (Ascii.eqb c) syntax_chars.

(** The ASCII characters: code units below 128. *)
Definition is_ascii_char (c : ascii) : bool :=
  (nat_of_ascii c <? 128)%nat.

Fixpoint is_ascii (s : string) : bool :=
  match s with
  | EmptyString => true
  | String c s' => is_ascii_char c && is_ascii s'
  end.

(** [new RegExp(pattern, flags)]: a sequence of atoms, each optionally
    starred.  A [*] with nothing before it is a SyntaxError; every
    other syntax character, and every character outside ASCII (whose
    case folding is not modelled), is outside the fragment. *)
Fixpoint parse (s : string) : result regex :=
  match s with
  | EmptyString => Ret Eps
  | String c s' =>
      if Ascii.eqb c "*" then Throw SyntaxError
      else if (is_syntax_char c && negb (Ascii.eqb c "."))
              || negb (is_ascii_char c) then Unmodelled
      else
        let atom := if Ascii.eqb c "." then AnyChar else Chr c in
        match s' with
        | String "*"%char s'' => let* r := parse s'' in Ret (Cat (Star atom) r)
        | _ => let* r := parse s' in Ret (Cat atom r)
        end
  end.

Record RegExp : Type := {
  source : regex;
  ignoreCase : bool
}.

Definition new_RegExp (pattern : string) (ignore_case : bool) : result RegExp :=
  let* r := parse pattern in
  Ret {| source := r; ignoreCase := ignore_case |}.

Definition is_line_terminator (c : ascii) : bool :=
  Ascii.eqb c "010" || Ascii.eqb c "013".

(** Whether pattern character [p] matches input character [c], both
    ASCII: with the [i] flag the letters A-Z and a-z are folded. *)
Definition char_matches (icase : bool) (p c : ascii) : bool :=
  if icase then Ascii.eqb (lower_ascii p) (lower_ascii c) else Ascii.eqb p c.

Fixpoint nullable (r : regex) : bool :=
  match r with
  | Void => false
  | Eps => true
  | Chr _ => false
  | AnyChar => false
  | Cat r1 r2 => nullable r1 && nullable r2
  | Alt r1 r2 => nullable r1 || nullable r2
  | Star _ => true
  end.

(** The derivative of [r] by the input character [c]. *)
Fixpoint deriv (icase : bool) (c : ascii) (r : regex) : regex :=
  match r with
  | Void => Void
  | Eps => Void
  | Chr p => if char_matches icase p c then Eps else Void
  | AnyChar => if is_line_terminator c then Void else Eps
  | Cat r1 r2 =>
      if nullable r1
      then Alt (Cat (deriv icase c r1) r2) (deriv icase c r2)
      else Cat (deriv icase c r1) r2
  | Alt r1 r2 => Alt (deriv icase c r1) (deriv icase c r2)
  | Star r1 => Cat (deriv icase c r1) (Star r1)
  end.

(** Some prefix of [s] matches [r]. *)
Fixpoint matches_prefix (icase : bool) (r : regex) (s : string) : bool :=
  nullable r ||
  match s with
  | EmptyString => false
  | String c s' => matches_prefix icase (deriv icase c r) s'
  end.

(** The pattern is not anchored: a match may start at any index. *)
Fixpoint search (icase : bool) (r : regex) (s : string) : bool :=
  matches_prefix icase r s ||
  match s with
  | EmptyString => false
  | String _ s' => search icase r s'
  end.

(** The strings a pattern matches in full, as a relation: the
    declarative reading [search] is checked against below. *)
Inductive matches (icase : bool) : regex -> string -> Prop :=
| matches_eps : matches icase Eps ""
| matches_chr p c :
    char_matches icase p c = true -> matches icase (Chr p) (String c "")
| matches_any c :
    is_line_terminator c = false -> matches icase AnyChar (String c "")
| matches_cat r1 r2 s1 s2 :
    matches icase r1 s1 -> matches icase r2 s2 ->
    matches icase (Cat r1 r2) (s1 ++ s2)
| matches_alt_l r1 r2 s : matches icase r1 s -> matches icase (Alt r1 r2) s
| matches_alt_r r1 r2 s : matches icase r2 s -> matches icase (Alt r1 r2) s
| matches_star_nil r : matches icase (Star r) ""
| matches_star_cons r s1 s2 :
    matches icase r s1 -> matches icase (Star r) s2 ->
    matches icase (Star r) (s1 ++ s2).

(** [re.test(v)], on a string of ASCII characters. *)
Definition test (re : RegExp) (v : value) : result bool :=
  let* s := to_string v in
  if is_ascii s then Ret (search (ignoreCase re) (source re) s)
  else Unmodelled.

(** *** Plain objects *)

(** The own properties of a plain object, in insertion order. *)
Definition object : Type := list (string * value).

Fixpoint own (o : object) (key : string) : option value :=
  match o with
  | [] => None
  | (k, v) :: o' => if String.eqb k key then Some v else own o' key
  end.

(** [Object.prototype.hasOwnProperty.call(o, key)] *)
Definition hasOwnProperty (o : object) (key : string) : bool :=
  match own o key with Some _ => true | None => false end.

(** The names every plain object inherits from [Object.prototype]. *)
Definition object_prototype : list string :=
  ["constructor"; "hasOwnProperty"; "isPrototypeOf"; "propertyIsEnumerable";
   "toLocaleString"; "toString"; "valueOf"; "__proto__";
   "__defineGetter__"; "__defineSetter__"; "__lookupGetter__";
   "__lookupSetter__"].

Definition inherited (key : string) : bool :=
  existsb (String.eqb key) object_prototype.

(** [key in o] *)
Definition has_property (o : object) (key : string) : bool :=
  hasOwnProperty o key || inherited key.

(** [o[key]] *)
Definition get (o : object) (key : string) : value :=
  match own o key with
  | Some v => v
  | None => if inherited key then Builtin key else Undefined
  end.

(** [o[key] = v] on an object whose properties are all writable data
    properties: an existing key keeps its place, a new one is added
    last. *)
Fixpoint set_own (o : object) (key : string) (v : value) : object :=
  match o with
  | [] => [(key, v)]
  | (k, w) :: o' =>
      if String.eqb k key then (k, v) :: o' else (k, w) :: set_own o' key v
  end.

(** [v.key] for an arbitrary value [v]: reading a property of
    [undefined] or [null] throws; a plain object is looked up; the
    prototypes of the other values are not modelled. *)
Definition member (v : value) (key : string) : result value :=
  match v with
  | Undefined | Null => Throw TypeError
  | Obj _ props => Ret (get props key)
  | Bool _ | Num _ | Str _ | Arr _ _ | Builtin _ => Unmodelled
  end.

(** *** Arrays *)

(** An index argument of [slice], clamped to [0 .. len]; a negative
    index counts from the end. *)
Definition relative_index (len i : Z) : Z :=
  if i <? 0 then Z.max (len + i) 0 else Z.min i len.

(** [l.slice(start, end)]; [end_ = None] is [undefined]. *)
Definition slice {A : Type} (l : list A) (start : Z) (end_ : option Z) : list A :=
  let len := Z.of_nat (List.length l) in
  let k := relative_index len start in
  let final := match end_ with
               | None => len
               | Some e => relative_index len e
               end in
  firstn (Z.to_nat (final - k)) (skipn (Z.to_nat k) l).

(** [l.sort(comparefn)]: a stable sort.  [comparefn x y > 0] puts [y]
    first; a result that is negative, zero or NaN keeps [x] first.  The
    order in which an engine calls [comparefn] is its own; for a
    comparator that is a consistent ordering every stable sort gives
    the list computed here.  For a comparator that is not (as
    [compareValues] when some records lack the sort field and others
    have it) the order is the engine's choice, and the list computed
    here is one of the permutations it may give: only what holds of
    every permutation is to be concluded from it then. *)
Section Sort.
Context {A : Type}.
Variable comparefn : A -> A -> result number.

Definition is_positive (n : number) : bool :=
  match n with Fin z => 0 <? z | NaN => false end.

Fixpoint insert_sorted (x : A) (l : list A) : result (list A) :=
  match l with
  | [] => Ret [x]
  | y :: l' =>
      let* v := comparefn x y in
      if is_positive v
      then let* r := insert_sorted x l' in Ret (y :: r)
      else Ret (x :: l)
  end.

Fixpoint sort (l : list A) : result (list A) :=
  match l with
  | [] => Ret []
  | x :: l' => let* s := sort l' in insert_sorted x s
  end.
End Sort.

(** *** The heap of arrays

    Arrays are mutable and shared by reference: a variable holds the
    address of an array, [sort] writes through it, and [filter], [slice]
    and [map] allocate a new array. *)
Definition loc : Type := nat.
Definition heap (A : Type) : Type := list (list A).

Definition deref {A : Type} (h : heap A) (l : loc) : list A :=
  default [] (h !! l).

Definition alloc {A : Type} (h : heap A) (a : list A) : heap A * loc :=
  ((h ++ [a])%list, List.length h).

Definition store {A : Type} (h : heap A) (l : loc) (a : list A) : heap A :=
  <[l := a]> h.

End JS.

(* ===================================================================== *)
(** ** class [LocalStatement] *)
(* ===================================================================== *)

Module LocalStatement.
Import JS.
Local Open Scope js_scope.

Definition SORT_ASC : string := "asc".
Definition SORT_DESC : string := "desc".

(** A record of an object store.  [connect] creates every store with a
    key path, so the stored values are objects. *)
Definition record : Type := object.

(** One element of a condition array, by the shape the evaluator
    sniffs: an array [[field, op, value]]; an object with a truthy
    [AND] member; an object with a truthy [OR] member and no truthy
    [AND]; [null], whose [typeof] is "object" too; anything else (a
    string, a number, [undefined], an object with neither member). *)
Inductive condition : Type :=
| Leaf (field op : string) (v : value)
| AND (conditions : list condition)
| OR (conditions : list condition)
| NullElement
| Malformed.

(** The fields the constructor sets, [db] apart: the connection is the
    store argument of [execute] and the fetched array of [fetchAll]. *)
Record statement : Type := {
  table : string;
  action : option string;              (* [null] is [None] *)
  values : value;
  conditions : list condition;
  selectedFields : option (list string);
  sortField : option string;
  sortDir : string;
  resultLimit : option Z;
  resultOffset : Z
}.

Definition new (table : string) : statement :=
  {| table := table;
     action := None;
     values := Null;
     conditions := [];
     selectedFields := None;
     sortField := None;
     sortDir := SORT_ASC;
     resultLimit := None;
     resultOffset := 0 |}.

(** *** The builder: each method updates one or two fields and returns
    the statement *)

Definition insert (vals : value) (st : statement) : statement :=
  {| table := table st; action := Some "insert"; values := vals;
     conditions := conditions st; selectedFields := selectedFields st;
     sortField := sortField st; sortDir := sortDir st;
     resultLimit := resultLimit st; resultOffset := resultOffset st |}.

(** The argument of [select]: an array of names, one name, or anything
    else; an omitted argument is the default [Names ["*"]]. *)
Inductive fields_arg : Type :=
| Names (l : list string)
| Name (s : string)
| NotNames.

Definition select (fields : fields_arg) (st : statement) : statement :=
  {| table := table st; action := Some "select"; values := values st;
     conditions := conditions st;
     selectedFields := Some match fields with
                            | Names l => l
                            | Name s => [s]
                            | NotNames => ["*"]
                            end;
     sortField := sortField st; sortDir := sortDir st;
     resultLimit := resultLimit st; resultOffset := resultOffset st |}.

Definition update (vals : value) (st : statement) : statement :=
  {| table := table st; action := Some "update"; values := vals;
     conditions := conditions st; selectedFields := selectedFields st;
     sortField := sortField st; sortDir := sortDir st;
     resultLimit := resultLimit st; resultOffset := resultOffset st |}.

Definition delete (st : statement) : statement :=
  {| table := table st; action := Some "delete"; values := values st;
     conditions := conditions st; selectedFields := selectedFields st;
     sortField := sortField st; sortDir := sortDir st;
     resultLimit := resultLimit st; resultOffset := resultOffset st |}.

Definition bindValues (vals : value) (st : statement) : statement :=
  {| table := table st; action := action st; values := vals;
     conditions := conditions st; selectedFields := selectedFields st;
     sortField := sortField st; sortDir := sortDir st;
     resultLimit := resultLimit st; resultOffset := resultOffset st |}.

(** [where(conditions)] *)
Definition where_ (conds : list condition) (st : statement) : statement :=
  {| table := table st; action := action st; values := values st;
     conditions := conds; selectedFields := selectedFields st;
     sortField := sortField st; sortDir := sortDir st;
     resultLimit := resultLimit st; resultOffset := resultOffset st |}.

(** [orderBy(field, direction)]: the body never reads [direction]; it
    stores the lower-cased constant [SORT_DESC]. *)
Definition orderBy (field : string) (direction : string) (st : statement)
  : statement :=
  {| table := table st; action := action st; values := values st;
     conditions := conditions st; selectedFields := selectedFields st;
     sortField := Some field; sortDir := toLowerCase SORT_DESC;
     resultLimit := resultLimit st; resultOffset := resultOffset st |}.

Definition limit (n : Z) (st : statement) : statement :=
  {| table := table st; action := action st; values := values st;
     conditions := conditions st; selectedFields := selectedFields st;
     sortField := sortField st; sortDir := sortDir st;
     resultLimit := Some (Z.max 1 n); resultOffset := resultOffset st |}.

Definition offset (n : Z) (st : statement) : statement :=
  {| table := table st; action := action st; values := values st;
     conditions := conditions st; selectedFields := selectedFields st;
     sortField := sortField st; sortDir := sortDir st;
     resultLimit := resultLimit st; resultOffset := Z.max 0 n |}.

(** *** The condition evaluator *)

(** [applyFilter(compare, op, value)] *)
Definition applyFilter (compare : value) (op : string) (v : value)
  : result bool :=
  let o := toLowerCase op in
  if String.eqb o "=" then Ret (strict_equals compare v)
  else if String.eqb o "!=" then Ret (negb (strict_equals compare v))
  else if String.eqb o "<" then less_than compare v
  else if String.eqb o "<=" then less_equal compare v
  else if String.eqb o ">" then greater_than compare v
  else if String.eqb o ">=" then greater_equal compare v
  else if String.eqb o "in" || String.eqb o "within"
    then Ret (isArray v && includes v compare)
  else if String.eqb o "like" then
    let* pattern := replace v "%" ".*" in
    let* re := new_RegExp pattern true in
    test re compare
  else Ret false.

(** The methods the class body declares. *)
Definition methods : list string :=
  ["insert"; "select"; "update"; "delete"; "bindValues"; "where";
   "orderBy"; "limit"; "offset"; "execute"; "fetchAll";
   "evaluateConditions"; "applyFilter"; "compareValues"].

(** The data properties the constructor puts on an instance. *)
Definition instance_fields : list string :=
  ["db"; "table"; "action"; "values"; "conditions"; "selectedFields";
   "sortField"; "sortDir"; "resultLimit"; "resultOffset"].

(** The call [this.name(compare, op, value)] on an instance.  The name
    [applyFilter] resolves to the method above.  Another declared or
    inherited method would run with these arguments, which is not
    modelled.  Any other name resolves to [undefined], or to a data
    field of the instance: calling it throws a TypeError (the engine
    reports that [this.name] is not a function). *)
Definition call_method (name : string) (compare : value) (op : string)
  (v : value) : result bool :=
  if String.eqb name "applyFilter" then applyFilter compare op v
  else if existsb (String.eqb name) instance_fields then Throw TypeError
  else if existsb (String.eqb name) methods || inherited name then Unmodelled
  else Throw TypeError.

Section Evaluate.
(** The name of the method the leaf case calls. *)
Variable callee : string.
Variable item : record.

(** The arrow function that [evaluateConditions] maps over the
    condition array; the local [evaluateConditions] is the recursive
    call of the method. *)
Fixpoint evaluate_condition (c : condition) : result bool :=
  let evaluateConditions (conds : list condition) (isOr : bool) :=
    let* results := mapM evaluate_condition conds in
    Ret (if isOr then existsb id results else forallb id results) in
  match c with
  | Leaf field op v => call_method callee (get item field) op v
  | AND conds => evaluateConditions conds false
  | OR conds => evaluateConditions conds true
  | NullElement => Throw TypeError   (* reading [condition.AND] of [null] *)
  | Malformed => Ret false
  end.

Definition evaluate_with (conds : list condition) (isOr : bool)
  : result bool :=
  let* results := mapM evaluate_condition conds in
  Ret (if isOr then existsb id results else forallb id results).
End Evaluate.

(** [evaluateConditions(item, conditions, isOr)]: its leaf case calls
    [this.applyFilters], with a final [s]. *)
Definition evaluateConditions (item : record) (conds : list condition)
  (isOr : bool) : result bool :=
  evaluate_with "applyFilters" item conds isOr.

(** *** The sort comparator and the result pipeline *)

Section Pipeline.
(** [String.prototype.localeCompare]: the collation of the host's
    locale. *)
Variable localeCompare : string -> string -> Z.

(** The property key [this.sortField] is used as ([null] is the key
    ["null"]). *)
Definition sort_key (st : statement) : string :=
  match sortField st with
  | Some f => f
  | None => "null"
  end.

(** [compareValues(a, b)] *)
Definition compareValues (st : statement) (a b : record) : result number :=
  let field := sort_key st in
  if negb (hasOwnProperty a field) || negb (hasOwnProperty b field)
  then Ret (Fin 0)
  else
    let valA := get a field in
    let valB := get b field in
    match valA, valB with
    | Str sa, Str sb =>
        Ret (Fin (if String.eqb (sortDir st) SORT_ASC
                  then localeCompare sa sb
                  else localeCompare sb sa))
    | _, _ =>
        if String.eqb (sortDir st) SORT_ASC
        then subtract valA valB
        else subtract valB valA
    end.

(** The callback of the projection: [selectedFields.reduce(...)] over
    a fresh [{}].  Assigning to the key [__proto__] is not a property
    write and is left out of the fragment. *)
Fixpoint project (item : record) (keys : list string) (obj : object)
  : result object :=
  match keys with
  | [] => Ret obj
  | key :: keys' =>
      if has_property item key
      then if String.eqb key "__proto__" then Unmodelled
           else project item keys' (set_own obj key (get item key))
      else project item keys' obj
  end.

(** [if (this.sortField)]: [null] and the empty string are falsy. *)
Definition sortField_truthy (st : statement) : bool :=
  match sortField st with
  | Some f => negb (String.eqb f "")
  | None => false
  end.

(** [this.resultLimit ? this.resultOffset + this.resultLimit : undefined] *)
Definition slice_end (st : statement) : option Z :=
  match resultLimit st with
  | Some n => if n =? 0 then None else Some (resultOffset st + n)
  | None => None
  end.

(** The pagination stage: [results.slice(this.resultOffset, ...)]. *)
Definition paginate {A : Type} (st : statement) (results : list A) : list A :=
  slice results (resultOffset st) (slice_end st).

(** [this.selectedFields && this.selectedFields[0] !== "*"]: the
    names to project on, when the projection stage runs. *)
Definition projection (st : statement) : option (list string) :=
  match selectedFields st with
  | Some ("*" :: _) => None
  | Some keys => Some keys
  | None => None
  end.

(** The [onsuccess] handler of [fetchAll], run on a heap in which
    [request_result] is the address of the array [getAll] produced.
    It returns the final heap and the address of the array the
    promise resolves with. *)
Definition onsuccess (st : statement) (h : heap record)
  (request_result : loc) : result (heap record * loc) :=
  let results := request_result in
  (* Apply filters using our WHERE logic. *)
  let* (h, results) :=
    if (0 <? List.length (conditions st))%nat
    then
      let* kept := filterM
                     (fun item => evaluateConditions item (conditions st) false)
                     (deref h results) in
      Ret (alloc h kept)
    else Ret (h, results) in
  (* Apply sorting. *)
  let* h :=
    if sortField_truthy st
    then
      let* sorted := sort (compareValues st) (deref h results) in
      Ret (store h results sorted)
    else Ret h in
  (* Apply pagination. *)
  let (h, results) := alloc h (paginate st (deref h results)) in
  (* Apply field selection *)
  let* (h, results) :=
    match projection st with
    | Some keys =>
        let* projected := mapM (fun item => project item keys [])
                            (deref h results) in
        Ret (alloc h projected)
    | None => Ret (h, results)
    end in
  Ret (h, results).

(** [fetchAll()] on a store whose [getAll] produced [fetched]: the
    records the promise resolves with, and the contents of the
    fetched array once the handler has run. *)
Definition fetchAll (st : statement) (fetched : list record)
  : result (list record * list record) :=
  let* (h, results) := onsuccess st [fetched] 0%nat in
  Ret (deref h results, deref h 0%nat).
End Pipeline.

(** *** The write path *)

Section Execute.
(** The object store behind [this.db], an external collaborator: its
    state, its errors, and its three requests.  A request yields the
    next state and either the result its success event carries or
    the error it fails with (thrown at the call or delivered by the
    error event: [execute] rejects with it either way). *)
Variable Store : Type.
Variable DOMException : Type.
Variable add put : value -> Store -> Store * (value + DOMException).
Variable delete_key : value -> Store -> Store * (value + DOMException).

(** What the promise of [execute] is rejected with. *)
Inductive reason : Type :=
| Exception (e : exn)          (* thrown inside the executor *)
| InvalidAction                (* the string "Invalid action" *)
| StoreError (e : DOMException).

Inductive settled : Type :=
| Resolved (v : value)
| Rejected (r : reason).

(** The two handlers installed on the request. *)
Definition settle (r : Store * (value + DOMException)) : Store * settled :=
  match r with
  | (s, inl v) => (s, Resolved v)
  | (s, inr e) => (s, Rejected (StoreError e))
  end.

(** [execute()] on a connected statement: the state of the store
    afterwards and how the returned promise settles.  In the default
    case the promise is rejected first; the TypeError that the
    assignment to [request.onsuccess] then throws is dropped by the
    already settled promise. *)
Definition execute (st : statement) (s : Store) : result (Store * settled) :=
  match action st with
  | Some "insert" => Ret (settle (add (values st) s))
  | Some "update" => Ret (settle (put (values st) s))
  | Some "delete" =>
      match member (values st) "id" with
      | Ret id => Ret (settle (delete_key id s))
      | Throw e => Ret (s, Rejected (Exception e))
      | Unmodelled => Unmodelled
      end
  | _ => Ret (s, Rejected InvalidAction)
  end.
End Execute.

End LocalStatement.

(* ===================================================================== *)
(** ** class [LocalDB] *)
(* ===================================================================== *)

Module LocalDB.
Import JS.

(** The options [connect] passes to [createObjectStore]. *)
Record store_options : Type := {
  keyPath : string;
  autoIncrement : bool
}.

(** The object stores of the database, by name, in creation order. *)
Definition stores : Type := list (string * store_options).

(** The schema object as [for (let table in schema)] walks it: each
    table name with the [keyPath] member of its entry, [None] when the
    entry has none. *)
Definition schema : Type := list (string * option string).

(** [this.db.objectStoreNames.contains(table)] *)
Definition contains (db : stores) (table : string) : bool :=
  existsb (fun st => String.eqb (fst st) table) db.

(** [schema[table].keyPath || "id"]: a missing and an empty key path
    are falsy. *)
Definition keyPath_or_id (kp : option string) : string :=
  match kp with
  | Some k => if String.eqb k "" then "id" else k
  | None => "id"
  end.

(** One turn of the loop in the [onupgradeneeded] handler. *)
Definition upgrade_table (db : stores) (entry : string * option string)
  : stores :=
  if contains db (fst entry) then db
  else (db ++ [(fst entry,
                {| keyPath := keyPath_or_id (snd entry);
                   autoIncrement := true |})])%list.

(** The [onupgradeneeded] handler of [connect(schema)], on the stores
    the database has when the upgrade starts. *)
Definition onupgradeneeded (sch : schema) (db : stores) : stores :=
  fold_left upgrade_table sch db.

(** The options of the store named [table], if there is one. *)
Definition objectStore (db : stores) (table : string) : option store_options :=
  option_map snd (List.find (fun st => String.eqb (fst st) table) db).

(** [prepare(table)] *)
Definition prepare (table : string) : LocalStatement.statement :=
  LocalStatement.new table.

End LocalDB.

(* ===================================================================== *)
(** ** Properties *)
(* ===================================================================== *)

Import JS.
Import LocalStatement.
Local Open Scope js_scope.

(** A collation to run examples with: code-unit order. *)
Definition codeunit_compare (s t : string) : Z :=
  match String.compare s t with
  | Lt => -1
  | Eq => 0
  | Gt => 1
  end.

Definition int (z : Z) : value := Num (Fin z).

(** The records of the end-to-end scenarios. *)
Definition user1 : record :=
  [("id", int 1); ("age", int 17); ("status", Str "active")].
Definition user2 : record :=
  [("id", int 2); ("age", int 20); ("status", Str "active")].
Definition user3 : record :=
  [("id", int 3); ("age", int 25); ("status", Str "inactive")].
Definition users : list record := [user1; user2; user3].

Definition adults_active : list condition :=
  [Leaf "age" ">=" (int 18); Leaf "status" "=" (Str "active")].

(** The operator tokens [applyFilter] has a case for. *)
Definition recognized : list string :=
  ["="; "!="; "<"; "<="; ">"; ">="; "in"; "within"; "like"].

Definition is_recognized (op : string) : bool :=
  existsb (String.eqb (toLowerCase op)) recognized.

(** A store to run [execute] on: the stored values in insertion order,
    with requests that always succeed. *)
Definition sample_store : Type := list value.

Definition sample_add (v : value) (s : sample_store)
  : sample_store * (value + unit) :=
  ((s ++ [v])%list, inl Undefined).

Definition has_key (key v : value) : bool :=
  match v with
  | Obj _ props => strict_equals (get props "id") key
  | _ => false
  end.

Definition sample_delete (key : value) (s : sample_store)
  : sample_store * (value + unit) :=
  (List.filter (fun v => negb (has_key key v)) s, inl Undefined).

Definition sample_execute : statement -> sample_store -> result (sample_store * settled unit) :=
  execute sample_store unit sample_add sample_add sample_delete.

(** The statement of the README's delete example:
    [prepare("users").delete().where([["id", "=", 456]])]. *)
Definition delete_where : statement :=
  where_ [Leaf "id" "=" (int 456)] (delete (new "users")).

Definition stored_users : sample_store :=
  [Obj 1 [("id", int 456); ("name", Str "Alice")];
   Obj 2 [("id", int 457); ("name", Str "Bob")]].

(** Whether evaluating a condition comes to a call of the leaf case or
    to a [null] element, at any depth: [map] visits every element, so
    nothing is skipped. *)
Fixpoint reaches_call (c : condition) : bool :=
  match c with
  | Leaf _ _ _ => true
  | NullElement => true
  | Malformed => false
  | AND conds => existsb reaches_call conds
  | OR conds => existsb reaches_call conds
  end.

(** The truth value of a condition that holds no leaf. *)
Fixpoint truth (c : condition) : bool :=
  match c with
  | AND conds => forallb truth conds
  | OR conds => existsb truth conds
  | Leaf _ _ _ | NullElement | Malformed => false
  end.

(** The values that have no [replace] method. *)
Definition has_no_replace (v : value) : bool :=
  match v with
  | Undefined | Null | Bool _ | Num _ | Arr _ _ => true
  | Str _ | Obj _ _ | Builtin _ => false
  end.

(** A pattern of plain text: ASCII characters, none of them a syntax
    character. *)
Fixpoint literal (p : string) : bool :=
  match p with
  | EmptyString => true
  | String c p' => negb (is_syntax_char c) && is_ascii_char c && literal p'
  end.

(** A pattern that holds no [%]. *)
Fixpoint percent_free (p : string) : bool :=
  match p with
  | EmptyString => true
  | String c p' => negb (Ascii.eqb c "%") && percent_free p'
  end.

(** The regular expression of the literal text [p] followed by [r]. *)
Fixpoint literal_then (p : string) (r : regex) : regex :=
  match p with
  | EmptyString => r
  | String c p' => Cat (Chr c) (literal_then p' r)
  end.

(** A string that holds no line terminator. *)
Fixpoint single_line (x : string) : bool :=
  match x with
  | EmptyString => true
  | String c x' => negb (is_line_terminator c) && single_line x'
  end.

Definition starts_with_star (s : string) : bool :=
  match s with
  | String c _ => Ascii.eqb c "*"
  | EmptyString => false
  end.

(** [m] is [p] up to the case of the letters A-Z. *)
Fixpoint same_ignoring_case (p m : string) : bool :=
  match p, m with
  | EmptyString, EmptyString => true
  | String a p', String b m' => char_matches true a b && same_ignoring_case p' m'
  | _, _ => false
  end.

(** [s] has a substring that is [p] up to case. *)
Definition contains_ignoring_case (p s : string) : Prop :=
  exists s0 m s2, s = s0 ++ m ++ s2 /\ same_ignoring_case p m = true.

(** The integers on which the host's arithmetic is exact: those of
    magnitude at most 2^53 are doubles, and a sum or difference of
    doubles that is such an integer is computed without rounding. *)
Definition exact_double (z : Z) : Prop := Z.abs z <= 2 ^ 53.

(** The integer a record holds under [f] as an own property. *)
Definition int_field (f : string) (r : record) : option Z :=
  match own r f with
  | Some (Num (Fin z)) => Some z
  | _ => None
  end.

Definition key_of (f : string) (r : record) : Z :=
  match int_field f r with
  | Some z => z
  | None => 0
  end.

(** Insertion into a list that is in non-increasing order of [key],
    after the elements with a greater key and before those with the same
    key. *)
Fixpoint insert_descending {A : Type} (key : A -> Z) (x : A) (l : list A)
  : list A :=
  match l with
  | [] => [x]
  | y :: l' =>
      if key x <? key y then y :: insert_descending key x l'
      else x :: l
  end.

Definition sort_descending {A : Type} (key : A -> Z) (l : list A) : list A :=
  fold_right (insert_descending key) [] l.

(** [a] may stand before [b] in a list in non-increasing order of
    [key]. *)
Definition not_below {A : Type} (key : A -> Z) (a b : A) : Prop :=
  key b <= key a.

(** The statements the builder methods produce from a new one. *)
Inductive built : statement -> Prop :=
| built_new t : built (new t)
| built_insert v st : built st -> built (insert v st)
| built_select a st : built st -> built (select a st)
| built_update v st : built st -> built (update v st)
| built_delete st : built st -> built (delete st)
| built_bindValues v st : built st -> built (bindValues v st)
| built_where c st : built st -> built (where_ c st)
| built_orderBy f d st : built st -> built (orderBy f d st)
| built_limit n st : built st -> built (limit n st)
| built_offset n st : built st -> built (offset n st).

Definition sample_schema : LocalDB.schema :=
  [("users", Some "id"); ("orders", None); ("logs", Some "ts")].

Definition old_stores : LocalDB.stores :=
  [("users", {| LocalDB.keyPath := "uid"; LocalDB.autoIncrement := false |})].

(** *** A run of the [fetchAll] handler, with the arrays it leaves

    The handler of [fetchAll] can end in an exception, and the arrays
    are then as the stages that ran left them.  Here each stage maps
    the arrays before it to the arrays after it and its completion, and
    the arrays outlive a completion that is not a value. *)

(** What is known of an array: its elements in order, or, after a sort
    whose comparator left the fragment or threw, its elements in an
    order that is not modelled. *)
Inductive array_state : Type :=
| Known (items : list record)
| Shuffled (items : list record).

Definition arrays : Type := list array_state.

Definition stage (A : Type) : Type := arrays -> arrays * result A.

Definition stage_ret {A : Type} (a : A) : stage A := fun h => (h, Ret a).

(** Sequencing: a completion that is not a value ends the handler with
    the arrays as they are.  (The stages after the sort only allocate
    new arrays, so this also holds where the model stops at
    [Unmodelled].) *)
Definition stage_bind {A B : Type} (m : stage A) (k : A -> stage B) : stage B :=
  fun h =>
    match m h with
    | (h', Ret a) => k a h'
    | (h', Throw e) => (h', Throw e)
    | (h', Unmodelled) => (h', Unmodelled)
    end.

Notation "'let+' x ':=' m 'in' k" := (stage_bind m (fun x => k))
  (at level 10, x pattern, m at level 100, k at level 200,
   format "'[v' 'let+'  x  :=  m  'in'  '/' k ']'") : js_scope.

(** A computation that touches no array. *)
Definition lift {A : Type} (r : result A) : stage A := fun h => (h, r).

Definition contents (h : arrays) (l : loc) : result (list record) :=
  match h !! l with
  | Some (Known items) => Ret items
  | _ => Unmodelled
  end.

(** Reading the elements of the array at [l]. *)
Definition read (l : loc) : stage (list record) := fun h => (h, contents h l).

(** [filter], [slice] and [map] return a new array. *)
Definition new_array (items : list record) : stage loc :=
  fun h => ((h ++ [Known items])%list, Ret (List.length h)).

(** [results.sort(comparefn)] writes into the array at [l]. *)
Definition sort_in_place (comparefn : record -> record -> result number)
  (l : loc) : stage unit :=
  fun h =>
    match h !! l with
    | Some (Known items) =>
        match sort comparefn items with
        | Ret sorted => (<[l := Known sorted]> h, Ret tt)
        | Throw e => (<[l := Shuffled items]> h, Throw e)
        | Unmodelled => (<[l := Shuffled items]> h, Unmodelled)
        end
    | _ => (h, Unmodelled)
    end.

(** The [onsuccess] handler of [fetchAll], stage by stage. *)
Definition onsuccess_stages (localeCompare : string -> string -> Z)
  (st : statement) (request_result : loc) : stage loc :=
  let results := request_result in
  (* Apply filters using our WHERE logic. *)
  let+ results :=
    if (0 <? List.length (conditions st))%nat
    then
      let+ items := read results in
      let+ kept := lift (filterM
                           (fun item =>
                              evaluateConditions item (conditions st) false)
                           items) in
      new_array kept
    else stage_ret results in
  (* Apply sorting. *)
  let+ _ :=
    if sortField_truthy st
    then sort_in_place (compareValues localeCompare st) results
    else stage_ret tt in
  (* Apply pagination. *)
  let+ items := read results in
  let+ results := new_array (paginate st items) in
  (* Apply field selection *)
  let+ results :=
    match projection st with
    | Some keys =>
        let+ items := read results in
        let+ projected := lift (mapM (fun item => project item keys []) items) in
        new_array projected
    | None => stage_ret results
    end in
  stage_ret results.

(** A run of [fetchAll()] on a store whose [getAll] produced [fetched]:
    what the fetched array holds when the handler has ended, and how
    the handler ended (the records it resolves with, or the
    exception). *)
Definition fetchAll_run (localeCompare : string -> string -> Z)
  (st : statement) (fetched : list record)
  : array_state * result (list record) :=
  match onsuccess_stages localeCompare st 0%nat [Known fetched] with
  | (h, completion) =>
      (default (Known []) (h !! 0%nat),
       let* results := completion in contents h results)
  end.

(** The records the handler resolves with once the sort stage has left
    [sorted]: pagination, then projection. *)
Definition after_sort (st : statement) (sorted : list record)
  : result (list record) :=
  match projection st with
  | Some keys => mapM (fun item => project item keys []) (paginate st sorted)
  | None => Ret (paginate st sorted)
  end.

(** *** The evaluator *)

Section EvaluatorFacts.
Variable item : record.

(** No member of the class or of an instance is named
    [applyFilters]. *)
Lemma applyFilters_undeclared :
  existsb (String.eqb "applyFilters") (methods ++ instance_fields)%list = false
  /\ inherited "applyFilters" = false.
Proof. split; reflexivity. Qed.

Lemma call_applyFilters compare op v :
  call_method "applyFilters" compare op v = Throw TypeError.
Proof. reflexivity. Qed.

Lemma call_applyFilter compare op v :
  call_method "applyFilter" compare op v = applyFilter compare op v.
Proof. reflexivity. Qed.

(** The unfolding of the method body. *)
Lemma evaluate_with_cons callee c conds isOr :
  evaluate_with callee item (c :: conds) isOr =
  let* r := evaluate_condition callee item c in
  let* rs := mapM (evaluate_condition callee item) conds in
  Ret (if isOr then existsb id (r :: rs) else forallb id (r :: rs)).
Proof.
  unfold evaluate_with. simpl mapM.
  destruct (evaluate_condition callee item c); simpl; trivial.
  destruct (mapM _ conds); reflexivity.
Qed.

(** A condition array that starts with a leaf makes the evaluator
    throw, whatever the leaf says. *)
Lemma leaf_first_throws field op v conds isOr :
  evaluateConditions item (Leaf field op v :: conds) isOr = Throw TypeError.
Proof.
  unfold evaluateConditions. rewrite evaluate_with_cons.
  simpl evaluate_condition. rewrite call_applyFilters. reflexivity.
Qed.

(** [applyFilter] falls to its default case on a token it has no
    case for. *)
Lemma applyFilter_default compare op v :
  is_recognized op = false -> applyFilter compare op v = Ret false.
Proof.
  unfold is_recognized, recognized, applyFilter. simpl existsb.
  intros H.
  repeat (apply orb_false_elim in H; destruct H as [-> H]).
  reflexivity.
Qed.

(** [applyFilter] answers [false] to [in] and [within] when the
    comparison value is not an array. *)
Lemma applyFilter_in_non_array compare op v :
  toLowerCase op = "in" \/ toLowerCase op = "within" ->
  isArray v = false ->
  applyFilter compare op v = Ret false.
Proof.
  intros [E | E] Hv; unfold applyFilter; rewrite E, Hv; reflexivity.
Qed.
End EvaluatorFacts.

(** C8: for every record, the empty condition list evaluates to true
    under AND (the default) and to false under OR, both when the method
    is called on it directly and when it is the [AND] or [OR] member of
    a nested condition object. *)
Theorem empty_condition_lists (item : record) :
  evaluateConditions item [] false = Ret true /\
  evaluateConditions item [] true = Ret false /\
  (forall isOr, evaluateConditions item [AND []] isOr = Ret true) /\
  (forall isOr, evaluateConditions item [OR []] isOr = Ret false).
Proof.
  repeat split; try reflexivity; intros []; reflexivity.
Qed.

(** What the filter of scenario 1 keeps once the leaf case calls the
    method the class declares, [applyFilter]. *)
Lemma scenario1_with_applyFilter :
  filterM (fun item => evaluate_with "applyFilter" item adults_active false) users
  = Ret [user2].
Proof. reflexivity. Qed.

(** C1: on the three records of scenario 1 and the conditions
    [["age", ">=", 18], ["status", "=", "active"]], the filter stage of
    [fetchAll] does not return the record with id 2: the first leaf
    makes [evaluateConditions] call the undeclared [this.applyFilters],
    and the TypeError ends the handler. *)
Theorem scenario1_filter_throws (localeCompare : string -> string -> Z) :
  evaluateConditions user1 adults_active false = Throw TypeError /\
  fetchAll localeCompare
    (where_ adults_active (select (Names ["*"]) (new "users"))) users
  = Throw TypeError.
Proof. split; reflexivity. Qed.

(** C2: a leaf whose operator token is not recognized does not evaluate
    to false through [evaluateConditions]: the evaluator throws a
    TypeError before any operator is looked at.  [applyFilter], which
    the evaluator never reaches, returns false for the same leaf. *)
Theorem unknown_operator_leaf_throws
  (item : record) (field op : string) (v : value) :
  is_recognized op = false ->
  evaluateConditions item [Leaf field op v] false = Throw TypeError /\
  applyFilter (get item field) op v = Ret false.
Proof.
  intros H. split.
  - apply leaf_first_throws.
  - now apply applyFilter_default.
Qed.

Lemma unknown_operator_leaf_throws_witness :
  is_recognized "~=" = false /\
  evaluateConditions user2 [Leaf "age" "~=" (int 18)] false = Throw TypeError /\
  applyFilter (get user2 "age") "~=" (int 18) = Ret false.
Proof.
  split; [reflexivity |].
  apply (unknown_operator_leaf_throws user2 "age" "~=" (int 18)).
  reflexivity.
Defined.

(** C4: the leaf [["name", "like", "%an%"]] does not evaluate to true on
    the name "Diana": through [evaluateConditions] it throws a
    TypeError, and [applyFilter] itself answers false, because only the
    first [%] of the pattern is translated and the regular expression
    [.*an%] requires a literal [%] after "an". *)
Theorem like_an_on_Diana :
  evaluateConditions [("name", Str "Diana")] [Leaf "name" "like" (Str "%an%")] false
  = Throw TypeError /\
  replace (Str "%an%") "%" ".*" = Ret ".*an%" /\
  applyFilter (Str "Diana") "like" (Str "%an%") = Ret false /\
  applyFilter (Str "Alice") "like" (Str "%an%") = Ret false /\
  applyFilter (Str "Diana") "like" (Str "%an") = Ret true.
Proof. repeat split; reflexivity. Qed.

(** C7: a leaf with operator [in] or [within] and a comparison value
    that is not an array does not evaluate to false through
    [evaluateConditions], which throws a TypeError on every leaf;
    [applyFilter] returns false for it, whatever the field holds. *)
Theorem in_non_array_leaf_throws
  (item : record) (field op : string) (v : value) :
  toLowerCase op = "in" \/ toLowerCase op = "within" ->
  isArray v = false ->
  evaluateConditions item [Leaf field op v] false = Throw TypeError /\
  applyFilter (get item field) op v = Ret false.
Proof.
  intros Hop Hv. split.
  - apply leaf_first_throws.
  - now apply applyFilter_in_non_array.
Qed.

Lemma in_non_array_leaf_throws_witness :
  evaluateConditions user1 [Leaf "status" "in" (Str "active")] false
  = Throw TypeError /\
  applyFilter (get user1 "status") "in" (Str "active") = Ret false.
Proof.
  apply (in_non_array_leaf_throws user1 "status" "in" (Str "active"));
    [left; reflexivity | reflexivity].
Defined.

(** *** The comparator *)

(** [orderBy] stores "desc" whatever direction it is given. *)
Lemma orderBy_sortDir field direction st :
  sortDir (orderBy field direction st) = SORT_DESC.
Proof. reflexivity. Qed.

(** C3: after [orderBy("age", "asc")] the comparator does not return
    the ascending comparison: for ages 1 and 2 it returns 2 - 1 = 1,
    the descending one; the comparator after [orderBy(f, d)] is the
    same for every direction [d]. *)
Theorem orderBy_asc_compares_descending (localeCompare : string -> string -> Z) :
  compareValues localeCompare (orderBy "age" SORT_ASC (new "users"))
    [("age", int 1)] [("age", int 2)]
  = Ret (Fin 1) /\
  subtract (int 1) (int 2) = Ret (Fin (-1)) /\
  (forall f d d' st a b,
     compareValues localeCompare (orderBy f d st) a b
     = compareValues localeCompare (orderBy f d' st) a b).
Proof. repeat split; reflexivity. Qed.

(** C9: when either record lacks an own property named by the sort
    field, the comparator returns 0, and the sort leaves the pair in
    the order it came in. *)
Theorem compareValues_missing_field
  (localeCompare : string -> string -> Z) (st : statement) (f : string)
  (a b : record) :
  sortField st = Some f ->
  hasOwnProperty a f = false \/ hasOwnProperty b f = false ->
  compareValues localeCompare st a b = Ret (Fin 0) /\
  sort (compareValues localeCompare st) [a; b] = Ret [a; b].
Proof.
  intros Hf H.
  assert (E : compareValues localeCompare st a b = Ret (Fin 0)).
  { unfold compareValues, sort_key. rewrite Hf.
    destruct H as [-> | ->]; [reflexivity |].
    now rewrite orb_true_r. }
  split; [exact E |].
  simpl. rewrite E. reflexivity.
Qed.

Lemma compareValues_missing_field_witness :
  sortField (orderBy "age" SORT_ASC (new "users")) = Some "age" /\
  compareValues codeunit_compare (orderBy "age" SORT_ASC (new "users"))
    [("id", int 1)] user2 = Ret (Fin 0).
Proof.
  split; [reflexivity |].
  apply (compareValues_missing_field codeunit_compare _ "age" [("id", int 1)] user2);
    [reflexivity | left; reflexivity].
Defined.

(** *** Pagination *)

Lemma firstn_min_length {A : Type} (n : nat) (l : list A) :
  firstn (Nat.min n (List.length l)) l = firstn n l.
Proof.
  destruct (Nat.le_ge_cases n (List.length l)) as [H | H].
  - now rewrite Nat.min_l.
  - rewrite Nat.min_r by exact H.
    now rewrite !firstn_all2 by lia.
Qed.

(** [slice] with an offset inside [0 ..] and an end past it. *)
Lemma slice_offset_count {A : Type} (l : list A) (k m : Z) :
  0 <= k -> 0 <= m ->
  slice l k (Some (k + m)) = firstn (Z.to_nat m) (skipn (Z.to_nat k) l).
Proof.
  intros Hk Hm. unfold slice, relative_index.
  destruct (Z.ltb_spec k 0); [lia |].
  destruct (Z.ltb_spec (k + m) 0); [lia |].
  set (len := Z.of_nat (List.length l)).
  destruct (Z.le_gt_cases len k) as [Hge | Hlt].
  - rewrite !skipn_all2 by (subst len; lia).
    now rewrite !firstn_nil.
  - rewrite (Z.min_l k len) by lia.
    rewrite <- (firstn_min_length (Z.to_nat m)).
    f_equal. rewrite length_skipn. subst len. lia.
Qed.

Lemma slice_offset_rest {A : Type} (l : list A) (k : Z) :
  0 <= k -> slice l k None = skipn (Z.to_nat k) l.
Proof.
  intros Hk. unfold slice, relative_index.
  destruct (Z.ltb_spec k 0); [lia |].
  set (len := Z.of_nat (List.length l)).
  destruct (Z.le_gt_cases len k) as [Hge | Hlt].
  - rewrite !skipn_all2 by (subst len; lia).
    now rewrite firstn_nil.
  - rewrite (Z.min_l k len) by lia.
    apply firstn_all2. rewrite length_skipn. subst len. lia.
Qed.

(** C6: with an offset [k >= 0] and a limit [m >= 1] or no limit, the
    pagination stage drops the first [k] records and keeps at most [m]
    of the rest (all of it without a limit); it returns
    [min m (max 0 (N - k))] records, and none, without failing, when
    the offset is not below the length [N]. *)
Theorem pagination_stage {A : Type} (st : statement) (l : list A) :
  let N := Z.of_nat (List.length l) in
  let k := resultOffset st in
  0 <= k ->
  match resultLimit st with Some m => 1 <= m | None => True end ->
  paginate st l =
    match resultLimit st with
    | Some m => firstn (Z.to_nat m) (skipn (Z.to_nat k) l)
    | None => skipn (Z.to_nat k) l
    end /\
  Z.of_nat (List.length (paginate st l)) =
    match resultLimit st with
    | Some m => Z.min m (Z.max 0 (N - k))
    | None => Z.max 0 (N - k)
    end /\
  (N <= k -> paginate st l = []).
Proof.
  intros N k Hk Hm.
  assert (E : paginate st l =
    match resultLimit st with
    | Some m => firstn (Z.to_nat m) (skipn (Z.to_nat k) l)
    | None => skipn (Z.to_nat k) l
    end).
  { unfold paginate, slice_end. fold k.
    destruct (resultLimit st) as [m |].
    - destruct (Z.eqb_spec m 0); [lia |].
      apply slice_offset_count; lia.
    - now apply slice_offset_rest. }
  rewrite E. split; [reflexivity | split].
  - destruct (resultLimit st) as [m |].
    + rewrite length_firstn, length_skipn. subst N. lia.
    + rewrite length_skipn. subst N. lia.
  - intros HN.
    rewrite (skipn_all2 l) by (subst N; lia).
    destruct (resultLimit st); [apply firstn_nil | reflexivity].
Qed.

Lemma pagination_stage_witness :
  0 <= resultOffset (offset 1 (limit 1 (new "users"))) /\
  paginate (offset 1 (limit 1 (new "users"))) users = [user2] /\
  Z.of_nat (List.length (paginate (offset 1 (limit 1 (new "users"))) users)) = 1.
Proof.
  split; [vm_compute; discriminate |].
  destruct (pagination_stage (offset 1 (limit 1 (new "users"))) users)
    as (E & L & _).
  - vm_compute; discriminate.
  - simpl. lia.
  - split; [exact E | exact L].
Defined.

(** *** The pipeline and the fetched array *)

Section PipelineFacts.
Variable localeCompare : string -> string -> Z.
Variable st : statement.

(** The pipeline as a function of the fetched records, with what the
    fetched array holds afterwards: the filter stage runs only on a
    non-empty condition array and makes a new array; the sort stage
    writes into the array it is given. *)
Lemma fetchAll_stages (fetched : list record) :
  fetchAll localeCompare st fetched =
  let filtering := (0 <? List.length (conditions st))%nat in
  let* kept :=
    if filtering
    then filterM (fun item => evaluateConditions item (conditions st) false)
           fetched
    else Ret fetched in
  let* sorted :=
    if sortField_truthy st
    then sort (compareValues localeCompare st) kept
    else Ret kept in
  let* projected :=
    match projection st with
    | Some keys =>
        mapM (fun item => project item keys []) (paginate st sorted)
    | None => Ret (paginate st sorted)
    end in
  Ret (projected, if filtering then fetched else sorted).
Proof.
  unfold fetchAll, onsuccess, alloc, store, deref. simpl.
  destruct (0 <? List.length (conditions st))%nat; simpl.
  - destruct (filterM _ fetched) as [kept | e |]; simpl; trivial.
    destruct (sortField_truthy st); simpl.
    + destruct (sort _ kept) as [sorted | e |]; simpl; trivial.
      destruct (projection st) as [keys |]; simpl; trivial.
      destruct (mapM _ _); reflexivity.
    + destruct (projection st) as [keys |]; simpl; trivial.
      destruct (mapM _ _); reflexivity.
  - destruct (sortField_truthy st); simpl.
    + destruct (sort _ fetched) as [sorted | e |]; simpl; trivial.
      destruct (projection st) as [keys |]; simpl; trivial.
      destruct (mapM _ _); reflexivity.
    + destruct (projection st) as [keys |]; simpl; trivial.
      destruct (mapM _ _); reflexivity.
Qed.
End PipelineFacts.

Section SortFacts.
Context {A : Type}.
Variable comparefn : A -> A -> result number.

Lemma insert_sorted_permutation (x : A) (l s : list A) :
  insert_sorted comparefn x l = Ret s -> Permutation s (x :: l).
Proof.
  revert s. induction l as [| y l IH]; intros s; simpl.
  - intros [= <-]. reflexivity.
  - destruct (comparefn x y) as [v | e |]; simpl; try discriminate.
    destruct (is_positive v).
    + destruct (insert_sorted comparefn x l) as [r | e |] eqn:E;
        simpl; try discriminate.
      intros [= <-]. rewrite (IH r eq_refl). apply perm_swap.
    + intros [= <-]. reflexivity.
Qed.

(** The sort only reorders. *)
Lemma sort_permutation (l s : list A) :
  sort comparefn l = Ret s -> Permutation s l.
Proof.
  revert s. induction l as [| x l IH]; intros s; simpl.
  - intros [= <-]. reflexivity.
  - destruct (sort comparefn l) as [s' | e |] eqn:E; simpl; try discriminate.
    intros H. apply insert_sorted_permutation in H.
    rewrite H. constructor. now apply IH.
Qed.
End SortFacts.

(** C5, as stated, fails: with no conditions and a sort field set, the
    sort stage reorders the fetched array itself. *)
Lemma fetchAll_sorts_fetched_array :
  fetchAll codeunit_compare
    (orderBy "age" SORT_ASC (select (Names ["*"]) (new "users")))
    [user1; user2]
  = Ret ([user2; user1], [user2; user1])
  /\ [user2; user1] <> [user1; user2].
Proof. split; [reflexivity | discriminate]. Qed.

Section RunFacts.
Variable localeCompare : string -> string -> Z.
Variable st : statement.

(** A run, by the stages that write: the filter stage leaves the
    fetched array alone and hands a new one to the sort; without a
    filter stage the sort is handed the fetched array. *)
Lemma fetchAll_run_stages (fetched : list record) :
  fetchAll_run localeCompare st fetched =
  if (0 <? List.length (conditions st))%nat
  then
    (Known fetched,
     let* kept := filterM
                    (fun item => evaluateConditions item (conditions st) false)
                    fetched in
     let* sorted := if sortField_truthy st
                    then sort (compareValues localeCompare st) kept
                    else Ret kept in
     after_sort st sorted)
  else if sortField_truthy st
  then
    match sort (compareValues localeCompare st) fetched with
    | Ret sorted => (Known sorted, after_sort st sorted)
    | Throw e => (Shuffled fetched, Throw e)
    | Unmodelled => (Shuffled fetched, Unmodelled)
    end
  else (Known fetched, after_sort st fetched).
Proof.
  unfold fetchAll_run, onsuccess_stages, after_sort, stage_bind, stage_ret,
    read, lift, new_array, sort_in_place, contents.
  destruct (0 <? List.length (conditions st))%nat; simpl.
  - destruct (filterM _ fetched) as [kept | e |]; simpl; trivial.
    destruct (sortField_truthy st); simpl.
    + destruct (sort _ kept) as [sorted | e |]; simpl; trivial.
      destruct (projection st) as [keys |]; simpl; trivial.
      destruct (mapM _ _); reflexivity.
    + destruct (projection st) as [keys |]; simpl; trivial.
      destruct (mapM _ _); reflexivity.
  - destruct (sortField_truthy st); simpl.
    + destruct (sort _ fetched) as [sorted | e |]; simpl; trivial.
      destruct (projection st) as [keys |]; simpl; trivial.
      destruct (mapM _ _); reflexivity.
    + destruct (projection st) as [keys |]; simpl; trivial.
      destruct (mapM _ _); reflexivity.
Qed.

(** The run ends as [fetchAll] does. *)
Lemma fetchAll_run_completion (fetched : list record) :
  snd (fetchAll_run localeCompare st fetched)
  = let* r := fetchAll localeCompare st fetched in Ret (fst r).
Proof.
  rewrite fetchAll_run_stages, fetchAll_stages. unfold after_sort. cbv zeta.
  destruct (0 <? List.length (conditions st))%nat; simpl.
  - destruct (filterM _ fetched) as [kept | e |]; simpl; trivial.
    destruct (if sortField_truthy st then _ else _) as [sorted | e |];
      simpl; trivial.
    destruct (projection st) as [keys |]; simpl; trivial.
    destruct (mapM _ _); reflexivity.
  - destruct (sortField_truthy st); simpl.
    + destruct (sort _ fetched) as [sorted | e |]; simpl; trivial.
      destruct (projection st) as [keys |]; simpl; trivial.
      destruct (mapM _ _); reflexivity.
    + destruct (projection st) as [keys |]; simpl; trivial.
      destruct (mapM _ _); reflexivity.
Qed.

(** C5, amended: in every run of the pipeline, whether the handler
    resolves, throws or leaves the fragment, the fetched array is left
    as it was whenever the condition array is non-empty or no sort
    field is set; in every run it holds the records it was fetched
    with, at most reordered (by the sort stage, which works in place,
    when there are no conditions and a sort field is set); and the run
    ends as [fetchAll] does. *)
Theorem fetched_array_after_run (fetched : list record) :
  (conditions st <> [] \/ sortField_truthy st = false ->
   fst (fetchAll_run localeCompare st fetched) = Known fetched) /\
  (exists items,
     Permutation items fetched /\
     (fst (fetchAll_run localeCompare st fetched) = Known items \/
      fst (fetchAll_run localeCompare st fetched) = Shuffled items)) /\
  snd (fetchAll_run localeCompare st fetched)
  = (let* r := fetchAll localeCompare st fetched in Ret (fst r)).
Proof.
  split; [| split; [| apply fetchAll_run_completion]];
    rewrite fetchAll_run_stages.
  - intros H.
    destruct (conditions st) as [| c conds]; simpl.
    + destruct H as [H | ->]; [now elim H | reflexivity].
    + reflexivity.
  - destruct (0 <? List.length (conditions st))%nat; simpl.
    + exists fetched. split; [reflexivity | now left].
    + destruct (sortField_truthy st).
      * destruct (sort _ fetched) as [sorted | e |] eqn:Hsort; simpl.
        -- exists sorted. split; [| now left].
           now apply sort_permutation in Hsort.
        -- exists fetched. split; [reflexivity | now right].
        -- exists fetched. split; [reflexivity | now right].
      * exists fetched. split; [reflexivity | now left].
Qed.
End RunFacts.

(** A filter that keeps every record hands the sort a copy: the result
    is sorted and the fetched array is as it was. *)
Lemma sort_after_filter_spares_fetched :
  fetchAll_run codeunit_compare
    (orderBy "age" "asc" (where_ [AND []] (LocalDB.prepare "users"))) users
  = (Known users, Ret [user3; user2; user1]).
Proof. reflexivity. Qed.

Lemma fetched_array_after_run_witness :
  fetchAll_run codeunit_compare
    (orderBy "age" "asc" (where_ adults_active (LocalDB.prepare "users")))
    users
  = (Known users, Throw TypeError) /\
  fst (fetchAll_run codeunit_compare
         (orderBy "age" "asc" (where_ adults_active (LocalDB.prepare "users")))
         users)
  = Known users.
Proof.
  split; [reflexivity |].
  apply (fetched_array_after_run codeunit_compare
           (orderBy "age" "asc" (where_ adults_active (LocalDB.prepare "users")))
           users).
  left. discriminate.
Defined.

(** *** The write path *)

(** [execute] does not read the conditions. *)
Lemma execute_ignores_conditions
  (Store DOMException : Type)
  (add put delete_key : value -> Store -> Store * (value + DOMException))
  (st : statement) (conds : list condition) (s : Store) :
  execute Store DOMException add put delete_key (where_ conds st) s
  = execute Store DOMException add put delete_key st s.
Proof. reflexivity. Qed.

(** C10: on a statement whose action is "delete" and whose values are
    still [null], as after [delete()] and [where(...)] without
    [bindValues], [execute] rejects with the TypeError of reading
    [values.id] and leaves the store as it was; and for every
    statement, whatever its action, the outcome of [execute] does not
    depend on the conditions set by [where]. *)
Theorem execute_delete_without_values
  (Store DOMException : Type)
  (add put delete_key : value -> Store -> Store * (value + DOMException))
  (st : statement) (s : Store) :
  action st = Some "delete" ->
  values st = Null ->
  execute Store DOMException add put delete_key st s
  = Ret (s, Rejected DOMException (Exception DOMException TypeError)) /\
  (forall conds,
     action (where_ conds (delete (new (table st)))) = Some "delete" /\
     values (where_ conds (delete (new (table st)))) = Null) /\
  (forall (st' : statement) (conds : list condition) (s' : Store),
     execute Store DOMException add put delete_key (where_ conds st') s'
     = execute Store DOMException add put delete_key st' s').
Proof.
  intros Ha Hv. repeat split.
  unfold execute. rewrite Ha, Hv. reflexivity.
Qed.

Lemma execute_delete_without_values_witness :
  action delete_where = Some "delete" /\
  values delete_where = Null /\
  sample_execute delete_where stored_users
  = Ret (stored_users, Rejected unit (Exception unit TypeError)).
Proof.
  split; [reflexivity | split; [reflexivity |]].
  apply (execute_delete_without_values
           sample_store unit sample_add sample_add sample_delete
           delete_where stored_users); reflexivity.
Defined.

(** *** The matcher against the matching relation *)

Section Matcher.
Variable icase : bool.

Lemma append_empty (s1 s2 : string) : s1 ++ s2 = "" -> s1 = "" /\ s2 = "".
Proof. destruct s1; simpl; [auto | discriminate]. Qed.

Lemma nullable_matches (r : regex) :
  nullable r = true <-> matches icase r "".
Proof.
  split.
  - induction r; simpl; intros H; try discriminate.
    + constructor.
    + apply andb_true_iff in H as [H1 H2].
      change "" with ("" ++ ""). constructor; auto.
    + apply orb_true_iff in H as [H | H];
        [apply matches_alt_l | apply matches_alt_r]; auto.
    + constructor.
  - intros H. remember "" as s eqn:Es.
    induction H; simpl; trivial; try discriminate.
    + apply append_empty in Es as [-> ->]. now rewrite IHmatches1, IHmatches2.
    + rewrite IHmatches; trivial.
    + rewrite IHmatches; trivial. apply orb_true_r.
Qed.

(** A non-empty match of a starred pattern starts with a non-empty
    match of its body. *)
Lemma matches_star_head (r0 : regex) (s0 : string) :
  matches icase r0 s0 ->
  forall r a t, r0 = Star r -> s0 = String a t ->
  exists t1 t2, t = t1 ++ t2 /\
                matches icase r (String a t1) /\ matches icase (Star r) t2.
Proof.
  induction 1 as [| | | | | | r' | r' s1 s2 H1 _ H2 IH2];
    intros r a t Er Es; try discriminate.
  injection Er as ->.
  destruct s1 as [| c1 s1]; simpl in Es.
  - now apply IH2.
  - injection Es as -> <-. now exists s1, s2.
Qed.

Lemma matches_cat_inv (r1 r2 : regex) (s : string) :
  matches icase (Cat r1 r2) s ->
  exists s1 s2, s = s1 ++ s2 /\ matches icase r1 s1 /\ matches icase r2 s2.
Proof. inversion 1; subst; eauto. Qed.

Lemma deriv_matches (c : ascii) (r : regex) :
  forall s, matches icase (deriv icase c r) s <-> matches icase r (String c s).
Proof.
  induction r as [| | p | | r1 IH1 r2 IH2 | r1 IH1 r2 IH2 | r IH];
    intros s; simpl.
  - split; inversion 1.
  - split; inversion 1.
  - destruct (char_matches icase p c) eqn:E; split; intros H.
    + inversion H; subst. now constructor.
    + inversion H; subst. constructor.
    + inversion H.
    + inversion H; subst. congruence.
  - destruct (is_line_terminator c) eqn:E; split; intros H.
    + inversion H.
    + inversion H; subst. congruence.
    + inversion H; subst. now constructor.
    + inversion H; subst. constructor.
  - assert (Hcat : matches icase (Cat (deriv icase c r1) r2) s ->
                   matches icase (Cat r1 r2) (String c s)).
    { intros H. apply matches_cat_inv in H as (s1 & s2 & -> & Ha & Hb).
      change (String c (s1 ++ s2)) with (String c s1 ++ s2).
      constructor; [now apply IH1 | exact Hb]. }
    assert (Hinv : matches icase (Cat r1 r2) (String c s) ->
                   matches icase (Cat (deriv icase c r1) r2) s \/
                   (matches icase r1 "" /\ matches icase (deriv icase c r2) s)).
    { intros H. apply matches_cat_inv in H as (s1 & s2 & Es & Ha & Hb).
      destruct s1 as [| c1 s1]; simpl in Es.
      - right. subst s2. split; [exact Ha | now apply IH2].
      - injection Es as <- ->. left. constructor; [now apply IH1 | exact Hb]. }
    destruct (nullable r1) eqn:En.
    + split; intros H.
      * inversion H; subst; [now apply Hcat |].
        change (String c s) with ("" ++ String c s).
        constructor; [now apply nullable_matches | now apply IH2].
      * destruct (Hinv H) as [H' | [_ H']];
          [now apply matches_alt_l | now apply matches_alt_r].
    + split; [exact Hcat |]. intros H.
      destruct (Hinv H) as [H' | [H' _]]; [exact H' |].
      apply nullable_matches in H'. congruence.
  - split; intros H; inversion H; subst;
      solve [apply matches_alt_l; now apply IH1
            | apply matches_alt_r; now apply IH2].
  - split; intros H.
    + apply matches_cat_inv in H as (s1 & s2 & -> & Ha & Hb).
      change (String c (s1 ++ s2)) with (String c s1 ++ s2).
      constructor; [now apply IH | exact Hb].
    + destruct (matches_star_head _ _ H r c s eq_refl eq_refl)
        as (s1 & s2 & -> & Ha & Hb).
      constructor; [now apply IH | exact Hb].
Qed.

(** [matches_prefix] finds a match that starts at index 0. *)
Lemma matches_prefix_spec (s : string) :
  forall r, matches_prefix icase r s = true <->
            exists s1 s2, s = s1 ++ s2 /\ matches icase r s1.
Proof.
  induction s as [| c s IH]; intros r; simpl.
  - rewrite orb_false_r, nullable_matches. split.
    + intros H. now exists "", "".
    + intros (s1 & s2 & E & H). symmetry in E.
      apply append_empty in E as [-> _]. exact H.
  - rewrite orb_true_iff, nullable_matches, IH. split.
    + intros [H | (s1 & s2 & -> & H)].
      * now exists "", (String c s).
      * exists (String c s1), s2. split; [reflexivity | now apply deriv_matches].
    + intros (s1 & s2 & E & H). destruct s1 as [| c1 s1]; simpl in E.
      * now left.
      * injection E as <- ->. right. exists s1, s2.
        split; [reflexivity | now apply deriv_matches].
Qed.

(** [search] answers whether some substring matches the pattern. *)
Lemma search_spec (r : regex) (s : string) :
  search icase r s = true <->
  exists s0 s1 s2, s = s0 ++ s1 ++ s2 /\ matches icase r s1.
Proof.
  induction s as [| c s IH]; cbn [search].
  - simpl. rewrite !orb_false_r, nullable_matches. split.
    + intros H. now exists "", "", "".
    + intros (s0 & s1 & s2 & E & H). symmetry in E.
      apply append_empty in E as [_ E]. apply append_empty in E as [-> _].
      exact H.
  - rewrite orb_true_iff, (matches_prefix_spec (String c s)), IH. split.
    + intros [(s1 & s2 & E & H) | (s0 & s1 & s2 & -> & H)].
      * exists "", s1, s2. now split.
      * exists (String c s0), s1, s2. now split.
    + intros (s0 & s1 & s2 & E & H). destruct s0 as [| c0 s0]; simpl in E.
      * left. now exists s1, s2.
      * injection E as <- ->. right. now exists s0, s1, s2.
Qed.
End Matcher.

(* ===================================================================== *)
(** ** Further properties of the code *)
(* ===================================================================== *)

(** *** The evaluator on whole condition trees *)

(** Induction on conditions, with the hypothesis on every element of a
    nested array. *)
Lemma condition_nested_ind (P : condition -> Prop) :
  (forall field op v, P (Leaf field op v)) ->
  (forall conds, Forall P conds -> P (AND conds)) ->
  (forall conds, Forall P conds -> P (OR conds)) ->
  P NullElement ->
  P Malformed ->
  forall c, P c.
Proof.
  intros Hleaf Hand Hor Hnull Hmal.
  fix IH 1.
  intros [field op v | conds | conds | |];
    [apply Hleaf | apply Hand | apply Hor | exact Hnull | exact Hmal].
  - induction conds as [| c conds IHl]; constructor; [apply IH | exact IHl].
  - induction conds as [| c conds IHl]; constructor; [apply IH | exact IHl].
Qed.

Section EagerEvaluation.
Variable item : record.

Local Abbreviation eval := (evaluate_condition "applyFilters" item).

Lemma mapM_eval_outcome (conds : list condition) :
  Forall (fun c => eval c = if reaches_call c then Throw TypeError
                             else Ret (truth c)) conds ->
  mapM eval conds = if existsb reaches_call conds then Throw TypeError
                    else Ret (map truth conds).
Proof.
  induction 1 as [| c conds Hc _ IH]; simpl; trivial.
  rewrite Hc. destruct (reaches_call c); simpl; trivial.
  rewrite IH. destruct (existsb reaches_call conds); reflexivity.
Qed.

Lemma existsb_id_map {A : Type} (f : A -> bool) (l : list A) :
  existsb id (map f l) = existsb f l.
Proof. induction l; simpl; congruence. Qed.

Lemma forallb_id_map {A : Type} (f : A -> bool) (l : list A) :
  forallb id (map f l) = forallb f l.
Proof. induction l; simpl; congruence. Qed.

Lemma evaluate_condition_outcome (c : condition) :
  eval c = if reaches_call c then Throw TypeError else Ret (truth c).
Proof.
  induction c as [field op v | conds IH | conds IH | |]
    using condition_nested_ind; trivial.
  - unfold eval. simpl. fold eval. rewrite (mapM_eval_outcome conds IH).
    destruct (existsb reaches_call conds); simpl; trivial.
    now rewrite forallb_id_map.
  - unfold eval. simpl. fold eval. rewrite (mapM_eval_outcome conds IH).
    destruct (existsb reaches_call conds); simpl; trivial.
    now rewrite existsb_id_map.
Qed.

Lemma evaluateConditions_cases (conds : list condition) (isOr : bool) :
  evaluateConditions item conds isOr =
  if existsb reaches_call conds then Throw TypeError
  else Ret (if isOr then existsb truth conds else forallb truth conds).
Proof.
  unfold evaluateConditions, evaluate_with. fold eval.
  rewrite mapM_eval_outcome.
  - destruct (existsb reaches_call conds); simpl; trivial.
    now rewrite existsb_id_map, forallb_id_map.
  - apply Forall_forall. intros c _. apply evaluate_condition_outcome.
Qed.

(** X1: [evaluateConditions] returns a boolean exactly on the
    condition arrays that hold no leaf and no [null] at any depth,
    where it is the conjunction (under AND) or disjunction (under OR)
    of the nested truth values; on every other array it throws a
    TypeError.  Nothing is short-circuited: one leaf anywhere in the
    tree is enough. *)
Theorem evaluateConditions_outcome (conds : list condition) (isOr : bool) :
  evaluateConditions item conds isOr =
  if existsb reaches_call conds then Throw TypeError
  else Ret (if isOr then existsb truth conds else forallb truth conds).
Proof. apply evaluateConditions_cases. Qed.
End EagerEvaluation.

Section ComposedConditions.
Variable callee : string.
Variable item : record.

Lemma mapM_app {A B : Type} (f : A -> result B) (l1 l2 : list A) :
  mapM f (l1 ++ l2)%list =
  let* r1 := mapM f l1 in let* r2 := mapM f l2 in Ret (r1 ++ r2)%list.
Proof.
  induction l1 as [| x l1 IH]; simpl.
  - destruct (mapM f l2); reflexivity.
  - destruct (f x); simpl; trivial.
    rewrite IH. destruct (mapM f l1); simpl; trivial.
    destruct (mapM f l2); reflexivity.
Qed.

(** X2: a condition object [{AND: conds}] standing alone in the array
    evaluates as the flat array [conds] under AND, and [{OR: conds}] as
    [conds] under OR, whichever mode the enclosing array is in and
    whatever method the leaf case calls. *)
Theorem single_group_is_flat (conds : list condition) (isOr : bool) :
  evaluate_with callee item [AND conds] isOr
  = evaluate_with callee item conds false /\
  evaluate_with callee item [OR conds] isOr
  = evaluate_with callee item conds true.
Proof.
  unfold evaluate_with. simpl.
  split; destruct (mapM _ conds) as [rs | e |]; simpl; trivial;
    destruct isOr; simpl;
    rewrite ?orb_false_r, ?andb_true_r; reflexivity.
Qed.

(** X3: when two condition arrays each evaluate to a boolean, their
    concatenation evaluates to the conjunction of the two under AND and
    to their disjunction under OR. *)
Theorem concatenated_conditions (conds1 conds2 : list condition)
  (isOr b1 b2 : bool) :
  evaluate_with callee item conds1 isOr = Ret b1 ->
  evaluate_with callee item conds2 isOr = Ret b2 ->
  evaluate_with callee item (conds1 ++ conds2)%list isOr
  = Ret (if isOr then b1 || b2 else b1 && b2).
Proof.
  unfold evaluate_with. rewrite mapM_app.
  destruct (mapM _ conds1) as [r1 | |]; simpl; try discriminate.
  destruct (mapM _ conds2) as [r2 | |]; simpl; try discriminate.
  intros [= <-] [= <-]. destruct isOr.
  - now rewrite existsb_app.
  - now rewrite forallb_app.
Qed.
End ComposedConditions.

Lemma concatenated_conditions_witness :
  evaluate_with "applyFilter" user2
    ([Leaf "age" ">=" (int 18)] ++ [Leaf "status" "=" (Str "inactive")])%list
    false
  = Ret (true && false).
Proof.
  apply (concatenated_conditions "applyFilter" user2
           [Leaf "age" ">=" (int 18)] [Leaf "status" "=" (Str "inactive")]
           false true false); reflexivity.
Defined.

(** *** [applyFilter] *)

Lemma strict_equals_sym (a b : value) : strict_equals a b = strict_equals b a.
Proof.
  destruct a as [| | x | [| x] | s | r l | r o | f],
           b as [| | y | [| y] | t | r' l' | r' o' | g];
    simpl; trivial.
  - now destruct x, y.
  - apply Z.eqb_sym.
  - apply String.eqb_sym.
  - apply Nat.eqb_sym.
  - apply Nat.eqb_sym.
  - apply String.eqb_sym.
Qed.

Lemma includes_strict_equals (compare : value) (elems : list value) :
  compare <> Num NaN ->
  existsb (fun y => same_value_zero y compare) elems
  = existsb (strict_equals compare) elems.
Proof.
  intros Hc. induction elems as [| y elems IH]; simpl; trivial.
  rewrite IH. f_equal.
  rewrite (strict_equals_sym compare y).
  destruct y as [| | | [|] | | | |], compare as [| | | [|] | | | |];
    try reflexivity.
  now elim Hc.
Qed.

(** X4: a record that has no property [field] gives [undefined] to the
    filter: the four order operators then answer false against every
    number, [=] answers false and [!=] true against every value other
    than [undefined]. *)
Theorem applyFilter_missing_field (item : record) (field : string) :
  has_property item field = false ->
  forall (n : number) (v : value),
    applyFilter (get item field) "<" (Num n) = Ret false /\
    applyFilter (get item field) "<=" (Num n) = Ret false /\
    applyFilter (get item field) ">" (Num n) = Ret false /\
    applyFilter (get item field) ">=" (Num n) = Ret false /\
    (v <> Undefined ->
     applyFilter (get item field) "=" v = Ret false /\
     applyFilter (get item field) "!=" v = Ret true).
Proof.
  intros H n v. unfold has_property, hasOwnProperty in H.
  apply orb_false_elim in H as [Hown Hinh].
  assert (E : get item field = Undefined).
  { unfold get. destruct (own item field); [discriminate |]. now rewrite Hinh. }
  rewrite E. repeat split; try (destruct n; reflexivity).
  - destruct v; try reflexivity. congruence.
  - destruct v; try reflexivity. congruence.
Qed.

Lemma applyFilter_missing_field_witness :
  has_property user1 "email" = false /\
  applyFilter (get user1 "email") ">=" (Num (Fin 0)) = Ret false /\
  applyFilter (get user1 "email") "<" (Num (Fin 0)) = Ret false.
Proof.
  split; [reflexivity |].
  destruct (applyFilter_missing_field user1 "email" eq_refl (Fin 0) Null)
    as (Hlt & _ & _ & Hge & _).
  split; [exact Hge | exact Hlt].
Defined.

(** X5: with [in] or [within] and an array, the filter answers true
    exactly when some element of the array is strictly equal to the
    compared value (for a compared value other than NaN); the two
    tokens are synonyms in any letter case. *)
Theorem applyFilter_in_membership
  (compare : value) (op : string) (r : nat) (elems : list value) :
  toLowerCase op = "in" \/ toLowerCase op = "within" ->
  compare <> Num NaN ->
  applyFilter compare op (Arr r elems)
  = Ret (existsb (strict_equals compare) elems) /\
  (applyFilter compare op (Arr r elems) = Ret true <->
   exists v, In v elems /\ strict_equals compare v = true).
Proof.
  intros Hop Hc.
  assert (E : applyFilter compare op (Arr r elems)
              = Ret (existsb (strict_equals compare) elems)).
  { assert (E0 : applyFilter compare op (Arr r elems)
                 = Ret (existsb (fun y => same_value_zero y compare) elems))
      by (destruct Hop as [E0 | E0]; unfold applyFilter; rewrite E0; reflexivity).
    rewrite E0. f_equal. now apply includes_strict_equals. }
  split; [exact E |]. rewrite E. split.
  - intros [= H]. apply existsb_exists in H. exact H.
  - intros H. f_equal. apply existsb_exists. exact H.
Qed.

Lemma applyFilter_in_membership_witness :
  applyFilter (Str "gold") "IN" (Arr 7 [Str "gold"; Str "platinum"])
  = Ret (existsb (strict_equals (Str "gold")) [Str "gold"; Str "platinum"]).
Proof.
  destruct (applyFilter_in_membership (Str "gold") "IN" 7
              [Str "gold"; Str "platinum"]) as [E _];
    [left; reflexivity | discriminate | exact E].
Defined.

(** X6: [like] does not fail closed: with a pattern value that has no
    [replace] method (undefined, null, a boolean, a number, an array)
    the filter throws a TypeError, and with a pattern string that
    starts with [*] it throws a SyntaxError. *)
Theorem applyFilter_like_throws
  (compare : value) (op : string) (v : value) (s : string) :
  toLowerCase op = "like" ->
  has_no_replace v = true ->
  applyFilter compare op v = Throw TypeError /\
  applyFilter compare op (Str (String "*" s)) = Throw SyntaxError.
Proof.
  intros Hop Hv. unfold applyFilter. rewrite Hop. split.
  - destruct v; try discriminate; reflexivity.
  - reflexivity.
Qed.

Lemma applyFilter_like_throws_witness :
  applyFilter (Str "Alice") "LIKE" (Num (Fin 5)) = Throw TypeError /\
  applyFilter (Str "Alice") "LIKE" (Str "*a") = Throw SyntaxError.
Proof.
  apply (applyFilter_like_throws (Str "Alice") "LIKE" (Num (Fin 5)) "a");
    reflexivity.
Defined.

(** *** [like] on patterns of plain text *)

Section LikePatterns.

Lemma applyFilter_like (compare : value) (op : string) (v : value) :
  toLowerCase op = "like" ->
  applyFilter compare op v =
  let* pattern := replace v "%" ".*" in
  let* re := new_RegExp pattern true in
  test re compare.
Proof. intros Hop. unfold applyFilter. rewrite Hop. reflexivity. Qed.

Lemma not_syntax_char (c : ascii) :
  is_syntax_char c = false ->
  Ascii.eqb c "*" = false /\ Ascii.eqb c "." = false.
Proof.
  unfold is_syntax_char, syntax_chars. simpl existsb. intros H.
  repeat (apply orb_false_elim in H; destruct H as [? H]). auto.
Qed.

(** The parser on a plain character that no [*] follows. *)
Lemma parse_plain_char (c : ascii) (s : string) :
  is_syntax_char c = false ->
  is_ascii_char c = true ->
  starts_with_star s = false ->
  parse (String c s) = let* r := parse s in Ret (Cat (Chr c) r).
Proof.
  intros Hc Ha Hs. destruct (not_syntax_char c Hc) as [Hstar Hdot].
  destruct s as [| c' s'].
  - cbn [parse]. now rewrite Hstar, Hc, Ha, Hdot.
  - simpl in Hs.
    destruct c' as [[] [] [] [] [] [] [] []]; try discriminate Hs;
      cbn [parse]; rewrite Hstar, Hc, Ha, Hdot; reflexivity.
Qed.

Lemma starts_with_star_app (p rest : string) :
  literal p = true -> starts_with_star rest = false ->
  starts_with_star (p ++ rest) = false.
Proof.
  destruct p as [| c p]; simpl; trivial.
  intros H _. apply andb_true_iff in H as [H _].
  apply andb_true_iff in H as [H _].
  apply negb_true_iff in H. now apply not_syntax_char in H.
Qed.

Lemma parse_literal_then (p rest : string) (r : regex) :
  literal p = true ->
  starts_with_star rest = false ->
  parse rest = Ret r ->
  parse (p ++ rest) = Ret (literal_then p r).
Proof.
  intros Hp Hrest Hr. induction p as [| c p IH]; [exact Hr |].
  cbn [append literal_then].
  simpl in Hp. apply andb_true_iff in Hp as [Hc Hp].
  apply andb_true_iff in Hc as [Hc Ha].
  apply negb_true_iff in Hc.
  rewrite parse_plain_char by (trivial; now apply starts_with_star_app).
  now rewrite (IH Hp).
Qed.

Lemma append_empty_r (s : string) : s ++ "" = s.
Proof. induction s; simpl; congruence. Qed.

Lemma replace_first_percent (p1 p2 : string) :
  percent_free p1 = true ->
  replace_first "%" ".*" (p1 ++ String "%" p2) = p1 ++ ".*" ++ p2.
Proof.
  intros H. induction p1 as [| c p1 IH].
  - simpl. unfold drop_chars. simpl.
    replace (String.prefix "" p2) with true by (now destruct p2).
    rewrite Nat.sub_0_r. do 2 f_equal.
    clear H. induction p2 as [| c p2 IH]; simpl; congruence.
  - simpl in H. apply andb_true_iff in H as [Hc H].
    apply negb_true_iff, Ascii.eqb_neq in Hc.
    cbn [append replace_first String.prefix].
    destruct (ascii_dec "%" c) as [E | _]; [now elim Hc |].
    now rewrite (IH H).
Qed.
End LikePatterns.

Section LikeMatching.

Lemma string_app_assoc (a b c : string) : (a ++ b) ++ c = a ++ b ++ c.
Proof. induction a; simpl; congruence. Qed.

Lemma replace_first_no_percent (p : string) :
  percent_free p = true -> replace_first "%" ".*" p = p.
Proof.
  induction p as [| c p IH]; [reflexivity |].
  intros H. simpl in H. apply andb_true_iff in H as [Hc H].
  apply negb_true_iff, Ascii.eqb_neq in Hc.
  cbn [replace_first String.prefix].
  destruct (ascii_dec "%" c) as [E | _]; [now elim Hc |].
  now rewrite (IH H).
Qed.

Lemma parse_literal (p : string) :
  literal p = true -> parse p = Ret (literal_then p Eps).
Proof.
  intros H. rewrite <- (append_empty_r p) at 1.
  now apply parse_literal_then.
Qed.

Lemma matches_literal_then (p : string) (r : regex) :
  forall m,
    matches true (literal_then p r) m <->
    exists m1 m2, m = m1 ++ m2 /\ same_ignoring_case p m1 = true /\
                  matches true r m2.
Proof.
  induction p as [| c p IH]; intros m; cbn [literal_then].
  - split.
    + intros H. now exists "", m.
    + intros (m1 & m2 & -> & E & H). destruct m1; [exact H | discriminate].
  - split.
    + intros H. apply matches_cat_inv in H as (a & b & -> & Ha & Hb).
      inversion Ha as [| ? x Hx | | | | | |]; subst.
      apply IH in Hb as (m1 & m2 & -> & E & H).
      exists (String x m1), m2. cbn [same_ignoring_case].
      rewrite Hx, E. now repeat split.
    + intros (m1 & m2 & -> & E & H).
      destruct m1 as [| x m1]; [discriminate |].
      cbn [same_ignoring_case] in E.
      apply andb_true_iff in E as [Hx E].
      change (String x m1 ++ m2) with (String x "" ++ (m1 ++ m2)).
      constructor; [now constructor |].
      apply IH. now exists m1, m2.
Qed.

Lemma matches_eps (m : string) : matches true Eps m <-> m = "".
Proof. split; [inversion 1; trivial | intros ->; constructor]. Qed.

(** What [.*] matches: any run of characters on one line. *)
Lemma matches_star_any (x : string) :
  matches true (Star AnyChar) x <-> single_line x = true.
Proof.
  split.
  - intros H. remember (Star AnyChar) as r eqn:Er.
    induction H as [| | | | | | r' | r' s1 s2 H1 _ H2 IH2]; try discriminate.
    + reflexivity.
    + injection Er as ->. specialize (IH2 eq_refl).
      inversion H1 as [| | c Hc | | | | |]; subst. simpl.
      now rewrite Hc, IH2.
  - induction x as [| c x IH]; simpl; intros H.
    + constructor.
    + apply andb_true_iff in H as [Hc H]. apply negb_true_iff in Hc.
      change (String c x) with (String c "" ++ x).
      constructor; [now constructor | now apply IH].
Qed.

(** X7: for a pattern of plain ASCII text with no [%] in it and no
    syntax character of regular expressions, [like] on an ASCII string
    is the test that the string holds the pattern as a substring, the
    case of the letters A-Z apart. *)
Theorem like_plain_text (s p op : string) :
  toLowerCase op = "like" ->
  is_ascii s = true ->
  literal p = true ->
  percent_free p = true ->
  (exists b, applyFilter (Str s) op (Str p) = Ret b) /\
  (applyFilter (Str s) op (Str p) = Ret true <-> contains_ignoring_case p s).
Proof.
  intros Hop Hs Hlit Hfree.
  assert (E : applyFilter (Str s) op (Str p)
              = Ret (search true (literal_then p Eps) s)).
  { rewrite applyFilter_like by exact Hop. simpl replace.
    rewrite replace_first_no_percent by exact Hfree.
    cbn [bind]. unfold new_RegExp. rewrite (parse_literal p Hlit).
    cbn [bind]. unfold test. cbn [to_string bind]. now rewrite Hs. }
  rewrite E. split; [eauto |].
  split.
  - intros [= H]. apply search_spec in H as (s0 & m & s2 & -> & H).
    apply matches_literal_then in H as (m1 & m2 & -> & Hp & H).
    apply matches_eps in H as ->. rewrite append_empty_r.
    now exists s0, m1, s2.
  - intros (s0 & m & s2 & -> & Hp). f_equal. apply search_spec.
    exists s0, m, s2. split; [reflexivity |].
    apply matches_literal_then. exists m, "".
    rewrite append_empty_r. repeat split; trivial. constructor.
Qed.

Lemma like_plain_text_witness :
  applyFilter (Str "Diana") "like" (Str "AN") = Ret true <->
  contains_ignoring_case "AN" "Diana".
Proof.
  exact (proj2 (like_plain_text "Diana" "AN" "like"
                  eq_refl eq_refl eq_refl eq_refl)).
Defined.

(** X8: in a pattern of plain ASCII text only the first [%] is a
    wildcard: it stands for any run of characters on one line, and
    every later [%] must occur in the compared string as itself.  On
    an ASCII string the pattern [p1 % p2] matches when the string holds
    [p1], then such a run, then [p2], the case of the letters A-Z
    apart. *)
Theorem like_first_percent (s p1 p2 op : string) :
  toLowerCase op = "like" ->
  is_ascii s = true ->
  literal p1 = true ->
  percent_free p1 = true ->
  literal p2 = true ->
  (exists b, applyFilter (Str s) op (Str (p1 ++ String "%" p2)) = Ret b) /\
  (applyFilter (Str s) op (Str (p1 ++ String "%" p2)) = Ret true <->
   exists s0 m1 x m2 s3,
     s = s0 ++ m1 ++ x ++ m2 ++ s3 /\
     same_ignoring_case p1 m1 = true /\
     single_line x = true /\
     same_ignoring_case p2 m2 = true).
Proof.
  intros Hop Hs Hlit1 Hfree Hlit2.
  set (r := literal_then p1 (Cat (Star AnyChar) (literal_then p2 Eps))).
  assert (E : applyFilter (Str s) op (Str (p1 ++ String "%" p2))
              = Ret (search true r s)).
  { rewrite applyFilter_like by exact Hop. simpl replace.
    rewrite replace_first_percent by exact Hfree.
    cbn [bind]. unfold new_RegExp.
    rewrite (parse_literal_then p1 (".*" ++ p2)
               (Cat (Star AnyChar) (literal_then p2 Eps)) Hlit1 eq_refl).
    - cbn [bind]. unfold test. cbn [to_string bind]. now rewrite Hs.
    - change (parse (".*" ++ p2))
        with (let* r2 := parse p2 in Ret (Cat (Star AnyChar) r2)).
      now rewrite (parse_literal p2 Hlit2). }
  rewrite E. split; [eauto |].
  split.
  - intros [= H]. apply search_spec in H as (s0 & m & s3 & -> & H).
    apply matches_literal_then in H as (m1 & m' & -> & Hp1 & H).
    apply matches_cat_inv in H as (x & m'' & -> & Hx & H).
    apply matches_star_any in Hx.
    apply matches_literal_then in H as (m2 & e & -> & Hp2 & H).
    apply matches_eps in H as ->. rewrite append_empty_r.
    exists s0, m1, x, m2, s3. repeat split; trivial.
    now rewrite !string_app_assoc.
  - intros (s0 & m1 & x & m2 & s3 & -> & Hp1 & Hx & Hp2). f_equal.
    apply search_spec. exists s0, (m1 ++ x ++ m2), s3. split.
    + now rewrite !string_app_assoc.
    + apply matches_literal_then. exists m1, (x ++ m2).
      repeat split; trivial. constructor.
      * now apply matches_star_any.
      * apply matches_literal_then. exists m2, "".
        rewrite append_empty_r. repeat split; trivial. constructor.
Qed.

Lemma like_first_percent_witness :
  applyFilter (Str "Dian%") "like" (Str ("" ++ String "%" "an%")) = Ret true.
Proof.
  apply (proj2 (like_first_percent "Dian%" "" "an%" "like"
                  eq_refl eq_refl eq_refl eq_refl eq_refl)).
  exists "Di", "", "", "an%", "". repeat split; reflexivity.
Defined.
End LikeMatching.

(** *** The comparator and the sort stage *)

Section DescendingSort.
Context {A : Type}.
Variable key : A -> Z.

Lemma insert_descending_sorted (x : A) (l : list A) :
  Sorted (not_below key) l -> Sorted (not_below key) (insert_descending key x l).
Proof.
  induction l as [| y l IH]; intros Hs; simpl.
  - repeat constructor.
  - inversion Hs as [| ? ? Hl Hy]; subst.
    destruct (Z.ltb_spec (key x) (key y)) as [Hlt | Hge].
    + constructor; [now apply IH |].
      destruct l as [| y' l]; simpl.
      * constructor. unfold not_below. lia.
      * destruct (key x <? key y'); constructor.
        -- now inversion Hy.
        -- unfold not_below. lia.
    + constructor; [exact Hs |]. constructor. exact Hge.
Qed.

Lemma sort_descending_sorted (l : list A) :
  Sorted (not_below key) (sort_descending key l).
Proof.
  induction l as [| x l IH]; simpl; [constructor |].
  now apply insert_descending_sorted.
Qed.

Lemma insert_descending_filter (z : Z) (x : A) (l : list A) :
  List.filter (fun r => key r =? z) (insert_descending key x l)
  = List.filter (fun r => key r =? z) (x :: l).
Proof.
  induction l as [| y l IH]; trivial.
  cbn [insert_descending].
  destruct (Z.ltb_spec (key x) (key y)) as [Hlt | Hge]; trivial.
  cbn [List.filter] in *. rewrite IH.
  destruct (Z.eqb_spec (key x) z), (Z.eqb_spec (key y) z); trivial. lia.
Qed.

(** Records with the same key keep the order they came in. *)
Lemma sort_descending_stable (z : Z) (l : list A) :
  List.filter (fun r => key r =? z) (sort_descending key l)
  = List.filter (fun r => key r =? z) l.
Proof.
  induction l as [| x l IH]; trivial.
  cbn [sort_descending fold_right].
  rewrite insert_descending_filter. cbn [List.filter].
  fold (sort_descending key l). now rewrite IH.
Qed.

Lemma insert_descending_Forall (P : A -> Prop) (x : A) (l : list A) :
  P x -> Forall P l -> Forall P (insert_descending key x l).
Proof.
  intros Hx. induction 1 as [| y l Hy Hl IH]; simpl.
  - now constructor.
  - destruct (key x <? key y); repeat constructor; trivial.
Qed.

Lemma sort_descending_Forall (P : A -> Prop) (l : list A) :
  Forall P l -> Forall P (sort_descending key l).
Proof.
  induction 1; simpl; [constructor |].
  now apply insert_descending_Forall.
Qed.

(** A comparator that is [key y - key x] on the elements of the list
    makes [sort] the insertion sort above. *)
Lemma sort_by_key_difference (comparefn : A -> A -> result number)
  (P : A -> Prop) :
  (forall x y, P x -> P y -> comparefn x y = Ret (Fin (key y - key x))) ->
  forall l, Forall P l -> sort comparefn l = Ret (sort_descending key l).
Proof.
  intros Hcmp.
  assert (Hins : forall x l, P x -> Forall P l ->
            insert_sorted comparefn x l = Ret (insert_descending key x l)).
  { intros x l Hx. induction 1 as [| y l Hy Hl IH]; simpl; trivial.
    rewrite (Hcmp x y Hx Hy). simpl.
    replace (0 <? key y - key x) with (key x <? key y)
      by (destruct (Z.ltb_spec (key x) (key y)),
                   (Z.ltb_spec 0 (key y - key x)); trivial; lia).
    destruct (key x <? key y); trivial. now rewrite IH. }
  induction 1 as [| x l Hx Hl IH]; simpl; trivial.
  rewrite IH. simpl. apply Hins; trivial.
  now apply sort_descending_Forall.
Qed.
End DescendingSort.

Section Comparator.
Variable localeCompare : string -> string -> Z.

Lemma int_field_own (f : string) (r : record) (z : Z) :
  int_field f r = Some z -> own r f = Some (Num (Fin z)).
Proof.
  unfold int_field. destruct (own r f) as [[| | | [| x] | | | |] |];
    try discriminate. now intros [= ->].
Qed.

Lemma compareValues_int_fields (st : statement) (f : string) (a b : record)
  (x y : Z) :
  sortField st = Some f ->
  int_field f a = Some x ->
  int_field f b = Some y ->
  compareValues localeCompare st a b
  = Ret (Fin (if String.eqb (sortDir st) SORT_ASC then x - y else y - x)).
Proof.
  intros Hf Ha Hb. apply int_field_own in Ha, Hb.
  unfold compareValues, sort_key, hasOwnProperty, get.
  rewrite Hf, Ha, Hb. simpl.
  destruct (String.eqb (sortDir st) SORT_ASC); reflexivity.
Qed.

(** X9: on two records that both hold an integer under the sort field,
    the two integers and their difference within 2^53 in magnitude,
    the comparator returns the difference of the two integers, first
    minus second when the stored direction is "asc" and second minus
    first otherwise; exchanging the records negates the result. *)
Theorem compareValues_antisymmetric (st : statement) (f : string)
  (a b : record) (x y : Z) :
  sortField st = Some f ->
  int_field f a = Some x ->
  int_field f b = Some y ->
  exact_double x -> exact_double y -> exact_double (x - y) ->
  exists d,
    d = (if String.eqb (sortDir st) SORT_ASC then x - y else y - x) /\
    compareValues localeCompare st a b = Ret (Fin d) /\
    compareValues localeCompare st b a = Ret (Fin (- d)).
Proof.
  intros Hf Ha Hb _ _ _.
  exists (if String.eqb (sortDir st) SORT_ASC then x - y else y - x).
  split; [reflexivity |].
  rewrite (compareValues_int_fields st f a b x y Hf Ha Hb).
  rewrite (compareValues_int_fields st f b a y x Hf Hb Ha).
  split; [reflexivity |].
  destruct (String.eqb (sortDir st) SORT_ASC); do 2 f_equal; lia.
Qed.

(** X10: [prepare(t).orderBy(f, d).fetchAll()], for either direction
    [d], on records that all hold an integer under [f], resolves with
    all the records in non-increasing order of [f], records with the
    same value in the order they were fetched; the fetched array itself
    ends up in that order. *)
Theorem orderBy_fetchAll_descending (t f d : string) (fetched : list record) :
  f <> "" ->
  Forall (fun r => int_field f r <> None) fetched ->
  exists sorted,
    fetchAll localeCompare (orderBy f d (LocalDB.prepare t)) fetched
    = Ret (sorted, sorted) /\
    Permutation sorted fetched /\
    Sorted (not_below (key_of f)) sorted /\
    forall z, List.filter (fun r => key_of f r =? z) sorted
              = List.filter (fun r => key_of f r =? z) fetched.
Proof.
  intros Hf Hall. exists (sort_descending (key_of f) fetched).
  assert (Hsort : sort (compareValues localeCompare
                          (orderBy f d (LocalDB.prepare t))) fetched
                  = Ret (sort_descending (key_of f) fetched)).
  { apply (sort_by_key_difference (key_of f) _
             (fun r => int_field f r <> None)); [| exact Hall].
    intros a b Ha Hb.
    destruct (int_field f a) as [x |] eqn:Ea; [| now elim Ha].
    destruct (int_field f b) as [y |] eqn:Eb; [| now elim Hb].
    rewrite (compareValues_int_fields (orderBy f d (LocalDB.prepare t))
               f a b x y eq_refl Ea Eb).
    unfold key_of. now rewrite Ea, Eb. }
  split; [| split; [| split]].
  - rewrite fetchAll_stages. cbv zeta.
    change (conditions (orderBy f d (LocalDB.prepare t))) with (@nil condition).
    change (sortField_truthy (orderBy f d (LocalDB.prepare t)))
      with (negb (String.eqb f "")).
    replace (String.eqb f "") with false
      by (symmetry; now apply String.eqb_neq).
    change (0 <? List.length (@nil condition))%nat with false.
    cbn [negb bind]. rewrite Hsort. cbn [bind].
    change (projection (orderBy f d (LocalDB.prepare t))) with (@None (list string)).
    change (paginate (orderBy f d (LocalDB.prepare t))
              (sort_descending (key_of f) fetched))
      with (slice (sort_descending (key_of f) fetched) 0 None).
    rewrite slice_offset_rest by lia. reflexivity.
  - now apply sort_permutation in Hsort.
  - apply sort_descending_sorted.
  - intros z. apply sort_descending_stable.
Qed.

End Comparator.

Lemma orderBy_fetchAll_descending_witness :
  exists sorted,
    fetchAll codeunit_compare (orderBy "age" "asc" (LocalDB.prepare "users")) users
    = Ret (sorted, sorted) /\
    Permutation sorted users /\
    Sorted (not_below (key_of "age")) sorted /\
    forall z, List.filter (fun r => key_of "age" r =? z) sorted
              = List.filter (fun r => key_of "age" r =? z) users.
Proof.
  apply (orderBy_fetchAll_descending codeunit_compare "users" "age" "asc" users).
  - discriminate.
  - repeat constructor; discriminate.
Defined.

(** *** The pipeline as a whole *)

Section PipelineOutcomes.
Variable localeCompare : string -> string -> Z.
Variable st : statement.

Lemma paginate_nil {A : Type} : paginate st (@nil A) = [].
Proof.
  unfold paginate, slice. now rewrite skipn_nil, firstn_nil.
Qed.

(** X11: on an empty store [fetchAll] resolves with an empty array,
    whatever conditions, sort field, page and selection the statement
    holds: no callback is ever called. *)
Theorem fetchAll_empty_store : fetchAll localeCompare st [] = Ret ([], []).
Proof.
  rewrite fetchAll_stages. cbv zeta.
  destruct (0 <? List.length (conditions st))%nat; simpl;
    destruct (sortField_truthy st); simpl; rewrite paginate_nil;
    destruct (projection st); reflexivity.
Qed.

(** X12: when the condition array holds a leaf (or a [null]) at any
    depth and the store holds at least one record, [fetchAll] ends in a
    TypeError: no statement that filters by a field returns records. *)
Theorem fetchAll_with_leaf_throws (first : record) (others : list record) :
  existsb reaches_call (conditions st) = true ->
  fetchAll localeCompare st (first :: others) = Throw TypeError.
Proof.
  intros H. rewrite fetchAll_stages. cbv zeta.
  destruct (conditions st) as [| c conds] eqn:Hc; [discriminate |].
  change (0 <? List.length (c :: conds))%nat with true. cbv iota.
  cbn [filterM]. rewrite evaluateConditions_cases, H. reflexivity.
Qed.

Lemma filterM_length {A : Type} (p : A -> result bool) (l kept : list A) :
  filterM p l = Ret kept -> (List.length kept <= List.length l)%nat.
Proof.
  revert kept. induction l as [| x l IH]; intros kept; simpl.
  - intros [= <-]. simpl. lia.
  - destruct (p x) as [b | |]; simpl; try discriminate.
    destruct (filterM p l) as [k | |]; simpl; try discriminate.
    specialize (IH k eq_refl).
    intros [= <-]. destruct b; simpl; lia.
Qed.

Lemma mapM_length {A B : Type} (f : A -> result B) (l : list A) (r : list B) :
  mapM f l = Ret r -> List.length r = List.length l.
Proof.
  revert r. induction l as [| x l IH]; intros r; simpl.
  - now intros [= <-].
  - destruct (f x) as [y | |]; simpl; try discriminate.
    destruct (mapM f l) as [ys | |]; simpl; try discriminate.
    intros [= <-]. simpl. now rewrite (IH ys).
Qed.

Lemma paginate_length {A : Type} (l : list A) :
  0 <= resultOffset st ->
  Z.of_nat (List.length (paginate st l))
    <= Z.max 0 (Z.of_nat (List.length l) - resultOffset st) /\
  forall m, resultLimit st = Some m -> 1 <= m ->
            Z.of_nat (List.length (paginate st l)) <= m.
Proof.
  intros Hk. unfold paginate, slice_end.
  destruct (resultLimit st) as [m |].
  - destruct (Z.eqb_spec m 0) as [-> | Hm].
    + rewrite slice_offset_rest by exact Hk. rewrite length_skipn.
      split; [lia |]. intros m [= <-]. lia.
    + destruct (Z.le_gt_cases 0 m) as [Hpos | Hneg].
      * rewrite slice_offset_count by lia.
        rewrite length_firstn, length_skipn.
        split; [lia |]. intros m' [= <-]. lia.
      * split; [| intros m' [= <-]; lia].
        unfold slice, relative_index.
        destruct (Z.ltb_spec (resultOffset st) 0); [lia |].
        destruct (Z.ltb_spec (resultOffset st + m) 0);
          rewrite length_firstn; lia.
  - rewrite slice_offset_rest by exact Hk. rewrite length_skipn.
    split; [lia | discriminate].
Qed.

(** X13: when [fetchAll] resolves, with an offset that is not
    negative, it resolves with no more records than the store holds
    past the offset, and with no more than the limit when one of at
    least 1 is set. *)
Theorem fetchAll_result_size (fetched out after : list record) :
  fetchAll localeCompare st fetched = Ret (out, after) ->
  0 <= resultOffset st ->
  Z.of_nat (List.length out)
    <= Z.max 0 (Z.of_nat (List.length fetched) - resultOffset st) /\
  forall m, resultLimit st = Some m -> 1 <= m ->
            Z.of_nat (List.length out) <= m.
Proof.
  rewrite fetchAll_stages. cbv zeta. intros H Hk.
  destruct (if (0 <? List.length (conditions st))%nat then _ else _)
    as [kept | |] eqn:Hkept; simpl in H; try discriminate.
  assert (Lk : (List.length kept <= List.length fetched)%nat).
  { destruct (0 <? List.length (conditions st))%nat.
    - now apply filterM_length in Hkept.
    - injection Hkept as <-. lia. }
  destruct (if sortField_truthy st then _ else _)
    as [sorted | |] eqn:Hsorted; simpl in H; try discriminate.
  assert (Ls : List.length sorted = List.length kept).
  { destruct (sortField_truthy st).
    - apply sort_permutation in Hsorted. now apply Permutation_length.
    - now injection Hsorted as <-. }
  destruct (match projection st with Some _ => _ | None => _ end)
    as [projected | |] eqn:Hproj; simpl in H; try discriminate.
  assert (Lp : List.length projected = List.length (paginate st sorted)).
  { destruct (projection st).
    - now apply mapM_length in Hproj.
    - now injection Hproj as <-. }
  injection H as E _.
  assert (Lo : Z.of_nat (List.length out)
               = Z.of_nat (List.length (paginate st sorted)))
    by (rewrite <- E; f_equal; exact Lp).
  rewrite Lo. destruct (paginate_length sorted Hk) as [H1 H2].
  split; [lia | exact H2].
Qed.
End PipelineOutcomes.

Lemma fetchAll_with_leaf_throws_witness :
  fetchAll codeunit_compare
    (where_ [AND [Leaf "role" "=" (Str "admin")]] (LocalDB.prepare "users"))
    (user1 :: [user2])
  = Throw TypeError.
Proof.
  apply (fetchAll_with_leaf_throws codeunit_compare
           (where_ [AND [Leaf "role" "=" (Str "admin")]] (LocalDB.prepare "users"))
           user1 [user2]).
  reflexivity.
Defined.

Lemma fetchAll_result_size_witness :
  Z.of_nat (List.length [user2])
    <= Z.max 0 (Z.of_nat (List.length users) - 1).
Proof.
  assert (H : fetchAll codeunit_compare
                (offset 1 (limit 1 (LocalDB.prepare "users"))) users
              = Ret ([user2], users)) by reflexivity.
  destruct (fetchAll_result_size codeunit_compare _ users [user2] users H)
    as [B _]; [simpl; lia | exact B].
Defined.

(** *** Projection *)

Lemma own_set_own (o : object) (key k : string) (v : value) :
  own (set_own o key v) k = if String.eqb key k then Some v else own o k.
Proof.
  induction o as [| [k' w] o IH]; simpl.
  - reflexivity.
  - destruct (String.eqb_spec k' key) as [-> | Hne]; simpl.
    + destruct (String.eqb key k); reflexivity.
    + rewrite IH. destruct (String.eqb_spec k' k) as [-> | _]; trivial.
      destruct (String.eqb_spec key k) as [-> | _]; [now elim Hne | trivial].
Qed.

Lemma project_own (item : record) (keys : list string) :
  Forall (fun key => inherited key = false) keys ->
  forall obj, exists o,
    project item keys obj = Ret o /\
    forall k, own o k = if existsb (String.eqb k) keys && hasOwnProperty item k
                        then own item k else own obj k.
Proof.
  induction 1 as [| key keys Hkey _ IH]; intros obj; simpl.
  - now exists obj.
  - unfold has_property. rewrite Hkey, orb_false_r.
    assert (Hproto : String.eqb key "__proto__" = false).
    { destruct (String.eqb_spec key "__proto__") as [-> | _]; [| trivial].
      discriminate Hkey. }
    unfold hasOwnProperty, get.
    destruct (own item key) as [v |] eqn:Hv.
    + rewrite Hproto.
      destruct (IH (set_own obj key v)) as (o & -> & Ho).
      exists o. split; [reflexivity |]. intros k. rewrite Ho, own_set_own.
      rewrite (String.eqb_sym k key).
      destruct (String.eqb_spec key k) as [<- | _]; simpl.
      * rewrite Hv. now destruct (_ && _).
      * reflexivity.
    + destruct (IH obj) as (o & -> & Ho).
      exists o. split; [reflexivity |]. intros k. rewrite Ho.
      rewrite (String.eqb_sym k key).
      destruct (String.eqb_spec key k) as [<- | _]; simpl; trivial.
      unfold hasOwnProperty. rewrite Hv. now rewrite !andb_false_r.
Qed.

(** X14: projecting a record on a list of field names (none of them a
    name inherited from [Object.prototype]) gives a record that holds,
    for each listed name the record has, the record's value, and
    nothing else: a listed name the record lacks is left out, not set
    to a default. *)
Theorem project_selected_fields (item : record) (keys : list string) :
  Forall (fun key => inherited key = false) keys ->
  exists o,
    project item keys [] = Ret o /\
    forall k, own o k = if existsb (String.eqb k) keys then own item k
                        else None.
Proof.
  intros H. destruct (project_own item keys H []) as (o & E & Ho).
  exists o. split; [exact E |]. intros k. rewrite Ho. simpl.
  unfold hasOwnProperty.
  destruct (existsb (String.eqb k) keys), (own item k); reflexivity.
Qed.

Lemma project_selected_fields_witness :
  exists o,
    project user1 ["age"; "email"] [] = Ret o /\
    forall k, own o k = if existsb (String.eqb k) ["age"; "email"]
                        then own user1 k else None.
Proof.
  apply (project_selected_fields user1 ["age"; "email"]).
  repeat constructor.
Defined.

(** *** Pages *)

Lemma firstn_two_pages {A : Type} (m m' : nat) (l : list A) :
  (firstn m l ++ firstn m' (skipn m l))%list = firstn (m + m') l.
Proof.
  revert l. induction m as [| m IH]; intros l; simpl; trivial.
  destruct l as [| x l]; simpl.
  - now rewrite firstn_nil.
  - now rewrite IH.
Qed.

Lemma paginate_built_page {A : Type} (st : statement) (l : list A) (k m : Z) :
  0 <= k -> 1 <= m ->
  paginate (offset k (limit m st)) l
  = firstn (Z.to_nat m) (skipn (Z.to_nat k) l).
Proof.
  intros Hk Hm. unfold paginate, slice_end. simpl.
  rewrite (Z.max_r 0 k), (Z.max_r 1 m) by lia.
  destruct (Z.eqb_spec m 0); [lia |].
  apply slice_offset_count; lia.
Qed.

(** X15: consecutive pages tile the result: the page of [m] records at
    offset [k] followed by the page of [m'] records at offset [k + m] is
    the page of [m + m'] records at offset [k]; nothing is skipped and
    nothing is repeated. *)
Theorem consecutive_pages {A : Type} (st : statement) (l : list A)
  (k m m' : Z) :
  0 <= k -> 1 <= m -> 1 <= m' ->
  (paginate (offset k (limit m st)) l
   ++ paginate (offset (k + m) (limit m' st)) l)%list
  = paginate (offset k (limit (m + m') st)) l.
Proof.
  intros Hk Hm Hm'.
  rewrite !paginate_built_page by lia.
  rewrite (Z2Nat.inj_add k m), (Z2Nat.inj_add m m') by lia.
  rewrite (Nat.add_comm (Z.to_nat k)), <- skipn_skipn.
  apply firstn_two_pages.
Qed.

Lemma consecutive_pages_witness :
  (paginate (offset 0 (limit 1 (LocalDB.prepare "users"))) users
   ++ paginate (offset (0 + 1) (limit 2 (LocalDB.prepare "users"))) users)%list
  = paginate (offset 0 (limit (1 + 2) (LocalDB.prepare "users"))) users.
Proof.
  apply (consecutive_pages (LocalDB.prepare "users") users 0 1 2); lia.
Defined.

(** *** The builder *)

(** X16: every statement made from a new one by the builder methods has
    an offset of at least 0 and a limit that is unset or at least 1;
    and it either has no sort field and the direction "asc" it was
    created with, or has a sort field and the direction "desc": no
    chain of calls makes a statement that sorts ascending. *)
Theorem built_invariant (st : statement) :
  built st ->
  0 <= resultOffset st /\
  match resultLimit st with Some m => 1 <= m | None => True end /\
  (sortField st = None /\ sortDir st = SORT_ASC \/
   (exists f, sortField st = Some f) /\ sortDir st = SORT_DESC).
Proof.
  induction 1 as [t | v st _ IH | a st _ IH | v st _ IH | st _ IH
                 | v st _ IH | c st _ IH | f d st _ IH | n st _ IH
                 | n st _ IH]; simpl; try exact IH.
  - repeat split; [lia | now left].
  - destruct IH as (Ho & Hl & _). repeat split; trivial. right. eauto.
  - destruct IH as (Ho & _ & Hs). repeat split; trivial. lia.
  - destruct IH as (_ & Hl & Hs). repeat split; trivial. lia.
Qed.

Lemma built_invariant_witness :
  0 <= resultOffset
         (offset (-3) (limit 0 (orderBy "name" "asc" (new "users")))) /\
  sortDir (offset (-3) (limit 0 (orderBy "name" "asc" (new "users"))))
  = SORT_DESC.
Proof.
  destruct (built_invariant
              (offset (-3) (limit 0 (orderBy "name" "asc" (new "users")))))
    as (Ho & _ & [[Hf _] | [_ Hd]]).
  - repeat constructor.
  - discriminate Hf.
  - split; [exact Ho | exact Hd].
Defined.

(** *** The write path, continued *)

Section ExecuteOutcomes.
Variable Store : Type.
Variable DOMException : Type.
Variable add put : value -> Store -> Store * (value + DOMException).
Variable delete_key : value -> Store -> Store * (value + DOMException).

Local Abbreviation run := (execute Store DOMException add put delete_key).

(** X17: a delete statement whose values are an object goes to the
    store's delete request with the [id] member of that object, and the
    promise settles as that request does; this holds for values bound
    before or after [delete()], and for values left by an earlier
    [insert] or [update]. *)
Theorem execute_delete_by_id (st : statement) (ref : nat) (props : object)
  (s : Store) :
  action st = Some "delete" ->
  values st = Obj ref props ->
  run st s = Ret (settle Store DOMException (delete_key (get props "id") s)) /\
  run (bindValues (Obj ref props) (delete st)) s = run st s /\
  run (delete (bindValues (Obj ref props) st)) s = run st s /\
  run (delete (insert (Obj ref props) st)) s = run st s.
Proof.
  intros Ha Hv. unfold run, execute. rewrite Ha, Hv. simpl.
  repeat split.
Qed.

(** X18: a statement with no action, or with the action "select", is
    rejected by [execute] with "Invalid action", and the store is left
    as it was: no request is issued. *)
Theorem execute_invalid_action (st : statement) (s : Store) :
  action st = None \/ action st = Some "select" ->
  run st s = Ret (s, Rejected DOMException (InvalidAction DOMException)).
Proof.
  intros [H | H]; unfold run, execute; rewrite H; reflexivity.
Qed.
End ExecuteOutcomes.

Lemma execute_delete_by_id_witness :
  sample_execute (bindValues (Obj 9 [("id", int 456)]) delete_where) stored_users
  = Ret ([Obj 2 [("id", int 457); ("name", Str "Bob")]], Resolved unit Undefined).
Proof.
  destruct (execute_delete_by_id sample_store unit sample_add sample_add
              sample_delete
              (bindValues (Obj 9 [("id", int 456)]) delete_where)
              9 [("id", int 456)] stored_users eq_refl eq_refl) as [E _].
  exact E.
Defined.

Lemma execute_invalid_action_witness :
  sample_execute (select (Names ["*"]) (LocalDB.prepare "users")) stored_users
  = Ret (stored_users, Rejected unit (InvalidAction unit)).
Proof.
  apply (execute_invalid_action sample_store unit sample_add sample_add
           sample_delete).
  right. reflexivity.
Defined.

(** *** [LocalDB.connect]: the upgrade handler *)

Section Upgrade.
Import LocalDB.

Lemma contains_app (db more : stores) (table : string) :
  contains (db ++ more)%list table = contains db table || contains more table.
Proof. unfold contains. apply existsb_app. Qed.

Lemma upgrade_table_extends (db : stores) (entry : string * option string) :
  exists created,
    upgrade_table db entry = (db ++ created)%list /\
    Forall (fun st => autoIncrement (snd st) = true /\
                      keyPath (snd st) <> "" /\
                      contains db (fst st) = false) created.
Proof.
  unfold upgrade_table. destruct (contains db (fst entry)) eqn:E.
  - exists []. split; [now rewrite app_nil_r | constructor].
  - eexists. split; [reflexivity |]. repeat constructor; trivial.
    simpl. unfold keyPath_or_id. destruct (snd entry) as [k |]; [| discriminate].
    destruct (String.eqb_spec k ""); [discriminate | trivial].
Qed.

Lemma upgrade_table_contains (db : stores) (entry : string * option string) :
  contains (upgrade_table db entry) (fst entry) = true.
Proof.
  unfold upgrade_table. destruct (contains db (fst entry)) eqn:E; trivial.
  rewrite contains_app, E. simpl. now rewrite String.eqb_refl.
Qed.

Lemma onupgradeneeded_extends (sch : schema) :
  forall db, exists created,
    onupgradeneeded sch db = (db ++ created)%list /\
    Forall (fun st => autoIncrement (snd st) = true /\
                      keyPath (snd st) <> "" /\
                      contains db (fst st) = false) created.
Proof.
  unfold onupgradeneeded.
  induction sch as [| entry sch IH]; intros db; simpl.
  - exists []. split; [now rewrite app_nil_r | constructor].
  - destruct (upgrade_table_extends db entry) as (c1 & E1 & F1).
    destruct (IH (upgrade_table db entry)) as (c2 & E2 & F2).
    exists (c1 ++ c2)%list. split.
    + rewrite E2, E1. now rewrite <- app_assoc.
    + apply Forall_app. split; [exact F1 |].
      eapply List.Forall_impl; [| exact F2].
      intros st (Ha & Hk & Hc). repeat split; trivial.
      rewrite E1, contains_app in Hc. now apply orb_false_elim in Hc.
Qed.

Lemma objectStore_app (db more : stores) (table : string) :
  contains db table = true ->
  objectStore (db ++ more)%list table = objectStore db table.
Proof.
  unfold objectStore, contains.
  induction db as [| st db IH]; simpl; [discriminate |].
  destruct (String.eqb (fst st) table); simpl; auto.
Qed.

Lemma onupgradeneeded_contains (sch : schema) :
  forall db table,
    contains db table = true \/ In table (map fst sch) ->
    contains (onupgradeneeded sch db) table = true.
Proof.
  unfold onupgradeneeded.
  induction sch as [| entry sch IH]; intros db table; simpl.
  - intros [H | []]. exact H.
  - intros [H | [<- | H]]; apply IH.
    + left. destruct (upgrade_table_extends db entry) as (c & -> & _).
      rewrite contains_app, H. reflexivity.
    + left. apply upgrade_table_contains.
    + now right.
Qed.

(** X19: the upgrade creates a store for every table of the schema that
    has none and touches nothing else: the stores the database had are
    all still there, first and with the options they had (a key path
    given for an existing table is not applied), and every store
    created is auto-incrementing with a non-empty key path. *)
Theorem onupgradeneeded_creates_missing (sch : schema) (db : stores) :
  (forall table, In table (map fst sch) ->
                 contains (onupgradeneeded sch db) table = true) /\
  (forall table, contains db table = true ->
                 objectStore (onupgradeneeded sch db) table
                 = objectStore db table) /\
  exists created,
    onupgradeneeded sch db = (db ++ created)%list /\
    Forall (fun st => autoIncrement (snd st) = true /\
                      keyPath (snd st) <> "" /\
                      contains db (fst st) = false) created.
Proof.
  destruct (onupgradeneeded_extends sch db) as (created & E & F).
  split; [| split].
  - intros table H. apply onupgradeneeded_contains. now right.
  - intros table H. rewrite E. now apply objectStore_app.
  - now exists created.
Qed.

Lemma onupgradeneeded_fixpoint (sch : schema) :
  forall db,
    (forall table, In table (map fst sch) -> contains db table = true) ->
    onupgradeneeded sch db = db.
Proof.
  unfold onupgradeneeded.
  induction sch as [| entry sch IH]; intros db H; simpl; trivial.
  unfold upgrade_table at 2. rewrite (H (fst entry)) by now left.
  apply IH. intros table Ht. apply H. now right.
Qed.

(** X20: running the upgrade again with the same schema changes
    nothing. *)
Theorem onupgradeneeded_idempotent (sch : schema) (db : stores) :
  onupgradeneeded sch (onupgradeneeded sch db) = onupgradeneeded sch db.
Proof.
  apply onupgradeneeded_fixpoint. intros table H.
  apply onupgradeneeded_contains. now right.
Qed.

Lemma objectStore_created (db : stores) (table : string) (o : store_options)
  (more : stores) :
  contains db table = false ->
  objectStore (db ++ (table, o) :: more)%list table = Some o.
Proof.
  unfold objectStore, contains.
  induction db as [| st db IH]; simpl.
  - now rewrite String.eqb_refl.
  - destruct (String.eqb (fst st) table); simpl; [discriminate | exact IH].
Qed.

(** X21: a table the database has no store for gets, from its first
    entry in the schema, a store whose key path is the entry's key
    path, or "id" when the entry gives none or an empty one. *)
Theorem onupgradeneeded_key_path (before after : schema) (table : string)
  (kp : option string) (db : stores) :
  contains db table = false ->
  ~ In table (map fst before) ->
  objectStore (onupgradeneeded (before ++ (table, kp) :: after)%list db) table
  = Some {| keyPath := keyPath_or_id kp; autoIncrement := true |}.
Proof.
  intros Hdb Hbefore. unfold onupgradeneeded. rewrite fold_left_app. simpl.
  fold (onupgradeneeded before db).
  assert (Hc : contains (onupgradeneeded before db) table = false).
  { clear kp after. revert db Hdb.
    unfold onupgradeneeded.
    induction before as [| entry before IH]; intros db Hdb; simpl; trivial.
    apply IH.
    - intros H. apply Hbefore. now right.
    - unfold upgrade_table. destruct (contains db (fst entry)); trivial.
      rewrite contains_app, Hdb. simpl. rewrite orb_false_r.
      apply String.eqb_neq. intros E. apply Hbefore. now left. }
  unfold upgrade_table at 2. simpl. rewrite Hc.
  fold (onupgradeneeded after
          (onupgradeneeded before db
           ++ [(table, {| keyPath := keyPath_or_id kp;
                          autoIncrement := true |})])%list).
  destruct (onupgradeneeded_extends after
              (onupgradeneeded before db
               ++ [(table, {| keyPath := keyPath_or_id kp;
                              autoIncrement := true |})])%list)
    as (created & -> & _).
  rewrite <- app_assoc. simpl. now apply objectStore_created.
Qed.
End Upgrade.

Lemma onupgradeneeded_key_path_witness :
  LocalDB.objectStore
    (LocalDB.onupgradeneeded
       ([("users", Some "id")] ++ ("orders", None) :: [("logs", Some "ts")])%list
       old_stores)
    "orders"
  = Some {| LocalDB.keyPath := "id"; LocalDB.autoIncrement := true |}.
Proof.
  apply (onupgradeneeded_key_path [("users", Some "id")] [("logs", Some "ts")]
           "orders" None old_stores).
  - reflexivity.
  - simpl. intros [H | []]. discriminate H.
Defined.

(** *** Integers under the six comparison operators, and clamped pages *)

(** X22: on two integers the six comparison operators of [applyFilter]
    are the integer comparisons: [=] and [!=] are equality and its
    negation, and [<], [<=], [>], [>=] the order of the integers. *)
Theorem applyFilter_on_integers (a b : Z) :
  applyFilter (int a) "=" (int b) = Ret (a =? b) /\
  applyFilter (int a) "!=" (int b) = Ret (negb (a =? b)) /\
  applyFilter (int a) "<" (int b) = Ret (a <? b) /\
  applyFilter (int a) "<=" (int b) = Ret (a <=? b) /\
  applyFilter (int a) ">" (int b) = Ret (b <? a) /\
  applyFilter (int a) ">=" (int b) = Ret (b <=? a).
Proof.
  unfold applyFilter, int, less_than, less_equal, greater_than,
    greater_equal, relational. simpl.
  repeat split; f_equal;
    destruct (Z.compare_spec a b), (Z.eqb_spec a b),
             (Z.ltb_spec a b), (Z.leb_spec a b),
             (Z.ltb_spec b a), (Z.leb_spec b a);
    try reflexivity; lia.
Qed.

(** X23: [limit(n)] and [offset(k)] clamp their arguments: the page of
    a statement built with them is the first [max 1 n] records after
    the first [max 0 k], so [limit(0)] still returns a record and a
    negative offset starts at the first record. *)
Theorem paginate_clamped {A : Type} (st : statement) (l : list A) (k n : Z) :
  paginate (offset k (limit n st)) l
  = firstn (Z.to_nat (Z.max 1 n)) (skipn (Z.to_nat (Z.max 0 k)) l).
Proof.
  unfold paginate, slice_end. simpl.
  destruct (Z.eqb_spec (Z.max 1 n) 0); [lia |].
  apply slice_offset_count; lia.
Qed.

Lemma compareValues_antisymmetric_witness :
  exists d,
    d = (if String.eqb (sortDir (orderBy "age" "desc" (new "users"))) SORT_ASC
         then 17 - 20 else 20 - 17) /\
    compareValues codeunit_compare (orderBy "age" "desc" (new "users"))
      user1 user2 = Ret (Fin d) /\
    compareValues codeunit_compare (orderBy "age" "desc" (new "users"))
      user2 user1 = Ret (Fin (- d)).
Proof.
  apply (compareValues_antisymmetric codeunit_compare
           (orderBy "age" "desc" (new "users")) "age" user1 user2 17 20);
    try reflexivity; unfold exact_double; simpl; lia.
Defined.
